(** * MeetingScheduler: the recommendation engine and the handlers around it

    A shallow embedding of [meeting-scheduler-code.go].  The three
    process-wide maps of the program are the fields of [Store]; every
    handler is a function from the request and the store to a response and
    the next store.  The two things a handler reads from its environment,
    [uuid.New()] and [time.Now()], are arguments of the handler. *)

From Stdlib Require Import ZArith Floats.SpecFloat.
From stdpp Require Import gmap strings list fin_maps sorting.

#[local] Set Warnings "-clear-no-such-hyp".

(** ** float64

    Go's [float64] is IEEE 754 binary64.  [SpecFloat] gives its operations
    as functions on [spec_float], rounding to nearest even. *)

Module F64.

Definition prec : Z := 53%Z.
Definition emax : Z := 1024%Z.

Definition t : Type := spec_float.

(** [float64(n)] for an integer [n]. *)
Definition of_int (n : Z) : t := binary_normalize prec emax n 0%Z false.

Definition add : t → t → t := SFadd prec emax.
Definition mul : t → t → t := SFmul prec emax.
Definition div : t → t → t := SFdiv prec emax.
Definition ltb : t → t → bool := SFltb.
Definition leb : t → t → bool := SFleb.

Definition is_nan (x : t) : bool :=
  match x with
  | S754_nan => true
  | _ => false
  end.

End F64.

(** The mantissa of an integer of at most 53 bits, moved up to 53 bits. *)
Definition mantissa53 (p : positive) : positive :=
  match (Z.pos (digits2_pos p) - 53)%Z with
  | Zneg k => Pos.iter xO p k
  | _ => p
  end.

(** ** time.Time and time.Duration

    A [time.Time] is an instant and a location.  The instant is counted in
    nanoseconds from the Unix epoch; [Before] and [Sub] read nothing else.
    The location is the pointer [loc] of the Go struct: [UTC] is the nil
    pointer, which a time decoded from a text that ends in [Z] has; a text
    with a numeric offset decodes to [Local] or to a fixed zone, and
    [time.Now()] is [Local].  The zero value [time.Time{}] is the first
    instant of the year 1 in [UTC].  A [Duration] is an [int64] number of
    nanoseconds. *)

Module Time.

Inductive Location : Type :=
  | UTC
  | Local
  | FixedZone (offset : Z).

Record t : Type := mk {
  instant : Z;
  loc : Location
}.

Definition Duration : Type := Z.

Definition minDuration : Duration := (- 2 ^ 63)%Z.
Definition maxDuration : Duration := (2 ^ 63 - 1)%Z.
Definition Minute : Duration := (60 * 1000000000)%Z.

(** [time.Time{}]: 62135596800 seconds before the Unix epoch. *)
Definition zero : t := mk (- 62135596800 * 1000000000)%Z UTC.

Definition Before (a b : t) : bool := (instant a <? instant b)%Z.

(** [a.Sub(b)]: the difference, saturated at the ends of [int64]. *)
Definition Sub (a b : t) : Duration :=
  let d := (instant a - instant b)%Z in
  if (d <? minDuration)%Z then minDuration
  else if (maxDuration <? d)%Z then maxDuration
  else d.

(** [d.Minutes()]: [float64(d / Minute) + float64(d % Minute) / (60 * 1e9)],
    with Go's truncating division and remainder. *)
Definition Minutes (d : Duration) : F64.t :=
  let min := Z.quot d Minute in
  let nsec := Z.rem d Minute in
  F64.add (F64.of_int min) (F64.div (F64.of_int nsec) (F64.of_int Minute)).

End Time.

Bind Scope Z_scope with Time.t Time.Duration.

(** A time is read as its instant where a number is expected. *)
Coercion Time.instant : Time.t >-> Z.

(** The reading of [time.Now()] at an instant; a number stands for it where
    a time is expected. *)
Definition clock (instant : Z) : Time.t := Time.mk instant Time.Local.
#[warning="-ambiguous-paths"] Coercion clock : Z >-> Time.t.

#[global] Instance Location_eq_dec : EqDecision Time.Location.
Proof. solve_decision. Defined.

#[global] Instance Time_eq_dec : EqDecision Time.t.
Proof. solve_decision. Defined.

(** ** Domain models

    [RequiredDuration] is a Go [int]; the program only stores it and
    converts it to [float64]. *)

Module Event.
Record t : Type := mk {
  ID : string;
  Title : string;
  Description : string;
  OrganizerID : string;
  RequiredDuration : Z;            (* in minutes *)
  Status : string;
  CreatedAt : Time.t;
  UpdatedAt : Time.t
}.
End Event.

Module TimeSlot.
Record t : Type := mk {
  ID : string;
  EventID : string;
  StartTime : Time.t;
  EndTime : Time.t;
  CreatedAt : Time.t;
  UpdatedAt : Time.t
}.
End TimeSlot.

Module UserAvailability.
Record t : Type := mk {
  ID : string;
  UserID : string;
  EventID : string;
  TimeSlotID : string;
  Status : string;
  CreatedAt : Time.t;
  UpdatedAt : Time.t
}.
End UserAvailability.

Module Recommendation.
Record t : Type := mk {
  TimeSlot : TimeSlot.t;
  AvailableUsers : list string;
  UnavailableUsers : list string;
  AvailabilityPercentage : F64.t
}.
End Recommendation.

(** ** Request models and their binding

    [ShouldBindJSON] decodes the body and then checks the [binding] tags:
    [required] refuses the zero value of the field (the empty string, the
    integer 0, [time.Time{}]), [oneof] refuses a string outside the list.  A body that does
    not decode is [None]. *)

Module CreateEventRequest.
Record t : Type := mk {
  Title : string;
  Description : string;
  OrganizerID : string;
  RequiredDuration : Z
}.

Definition valid (r : t) : bool :=
  bool_decide (Title r ≠ "") && bool_decide (OrganizerID r ≠ "")
  && bool_decide (RequiredDuration r ≠ 0%Z).
End CreateEventRequest.

Module CreateTimeSlotRequest.
Record t : Type := mk {
  StartTime : Time.t;
  EndTime : Time.t
}.

Definition valid (r : t) : bool :=
  bool_decide (StartTime r ≠ Time.zero) && bool_decide (EndTime r ≠ Time.zero).
End CreateTimeSlotRequest.

Module UserAvailabilityRequest.
Record t : Type := mk {
  TimeSlotID : string;
  Status : string
}.

Definition valid (r : t) : bool :=
  bool_decide (TimeSlotID r ≠ "")
  && (bool_decide (Status r = "available") || bool_decide (Status r = "unavailable")).
End UserAvailabilityRequest.

Definition ShouldBindJSON {R : Type} (valid : R → bool) (body : option R) : option R :=
  match body with
  | Some r => if valid r then Some r else None
  | None => None
  end.

(** ** In-memory storage *)

Record Store : Type := mkStore {
  events : gmap string Event.t;
  timeSlots : gmap string TimeSlot.t;
  userAvailability : gmap string UserAvailability.t
}.

Definition emptyStore : Store := mkStore ∅ ∅ ∅.

(** ** Responses: the status code of [c.JSON] and its body *)

Inductive Response (A : Type) : Type :=
  | StatusOK (body : A)
  | StatusCreated (body : A)
  | StatusBadRequest
  | StatusNotFound (error : string).

Arguments StatusOK {A} body.
Arguments StatusCreated {A} body.
Arguments StatusBadRequest {A}.
Arguments StatusNotFound {A} error.

(** ** Event handlers *)

Definition createEvent (uuid : string) (now : Time.t)
    (body : option CreateEventRequest.t) (st : Store) : Response Event.t * Store :=
  match ShouldBindJSON CreateEventRequest.valid body with
  | None => (StatusBadRequest, st)
  | Some req =>
    let event := Event.mk uuid
                   (CreateEventRequest.Title req)
                   (CreateEventRequest.Description req)
                   (CreateEventRequest.OrganizerID req)
                   (CreateEventRequest.RequiredDuration req)
                   "active" now now in
    (StatusCreated event,
     mkStore (<[Event.ID event := event]> (events st)) (timeSlots st) (userAvailability st))
  end.

Definition updateEvent (now : Time.t) (eventID : string)
    (body : option CreateEventRequest.t) (st : Store) : Response Event.t * Store :=
  match events st !! eventID with
  | None => (StatusNotFound "Event not found", st)
  | Some stored =>
    match ShouldBindJSON CreateEventRequest.valid body with
    | None => (StatusBadRequest, st)
    | Some req =>
      let event := Event.mk (Event.ID stored)
                     (CreateEventRequest.Title req)
                     (CreateEventRequest.Description req)
                     (CreateEventRequest.OrganizerID req)
                     (CreateEventRequest.RequiredDuration req)
                     (Event.Status stored) (Event.CreatedAt stored) now in
      (StatusOK event,
       mkStore (<[eventID := event]> (events st)) (timeSlots st) (userAvailability st))
    end
  end.

(** ** TimeSlot handlers *)

Definition createTimeSlot (uuid : string) (now : Time.t) (eventID : string)
    (body : option CreateTimeSlotRequest.t) (st : Store) : Response TimeSlot.t * Store :=
  match events st !! eventID with
  | None => (StatusNotFound "Event not found", st)
  | Some _ =>
    match ShouldBindJSON CreateTimeSlotRequest.valid body with
    | None => (StatusBadRequest, st)
    | Some req =>
      if Time.Before (CreateTimeSlotRequest.EndTime req) (CreateTimeSlotRequest.StartTime req)
      then (StatusBadRequest, st)
      else
        let timeSlot := TimeSlot.mk uuid eventID
                          (CreateTimeSlotRequest.StartTime req)
                          (CreateTimeSlotRequest.EndTime req) now now in
        (StatusCreated timeSlot,
         mkStore (events st) (<[TimeSlot.ID timeSlot := timeSlot]> (timeSlots st))
                 (userAvailability st))
    end
  end.

(** ** UserAvailability handlers *)

Definition createUserAvailability (uuid : string) (now : Time.t) (eventID userID : string)
    (body : option UserAvailabilityRequest.t) (st : Store)
    : Response UserAvailability.t * Store :=
  match events st !! eventID with
  | None => (StatusNotFound "Event not found", st)
  | Some _ =>
    match ShouldBindJSON UserAvailabilityRequest.valid body with
    | None => (StatusBadRequest, st)
    | Some req =>
      match timeSlots st !! UserAvailabilityRequest.TimeSlotID req with
      | None => (StatusNotFound "Time slot not found", st)
      | Some _ =>
        let availability := UserAvailability.mk uuid userID eventID
                              (UserAvailabilityRequest.TimeSlotID req)
                              (UserAvailabilityRequest.Status req) now now in
        (StatusCreated availability,
         mkStore (events st) (timeSlots st)
                 (<[UserAvailability.ID availability := availability]> (userAvailability st)))
      end
    end
  end.

(** ** Ranging over a map

    A [range] statement over a Go map visits every entry once, in an order
    that the language leaves unspecified and that may change from one
    [range] statement to the next.  [ranges m l] says that [l] is such a
    visit of [m]. *)

Definition ranges {V : Type} (m : gmap string V) (l : list (string * V)) : Prop :=
  l ≡ₚ map_to_list m.

(** The orders taken by the [range] statements of one call of
    [getRecommendations]: over [timeSlots] (collecting [eventSlots]), over
    [userAvailability] (collecting [uniqueUsers]), over [uniqueUsers] in the
    iteration of the slot loop with index [k], and over [userAvailability]
    for user [u] inside that iteration. *)
Record RangeOrder : Type := mkRangeOrder {
  slotRange : list (string * TimeSlot.t);
  availRange : list (string * UserAvailability.t);
  userRange : nat → list string;
  scanRange : nat → string → list (string * UserAvailability.t)
}.

(** ** The sort at the end of [getRecommendations]

    [for i := 0; i < len(r); i++ { for j := i + 1; j < len(r); j++ {
       if r[i] < r[j] { r[i], r[j] = r[j], r[i] } } }]

    The slice is a list read with [!!] and written with [<[_:=_]>]; the
    bounds of the two loops keep [i] and [j] below the length, so the cases
    of a missing element are never taken. *)

Section Sort.
Context {A : Type} (less : A → A → bool).

Definition swap (i j : nat) (r : list A) : list A :=
  match r !! i, r !! j with
  | Some x, Some y => <[j := x]> (<[i := y]> r)
  | _, _ => r
  end.

Definition sortStep (i : nat) (r : list A) (j : nat) : list A :=
  match r !! i, r !! j with
  | Some x, Some y => if less x y then swap i j r else r
  | _, _ => r
  end.

Definition sortInner (r : list A) (i : nat) : list A :=
  foldl (sortStep i) r (seq (S i) (length r - S i)).

Definition exchangeSort (r : list A) : list A :=
  foldl sortInner r (seq 0 (length r)).

(** No element of [r] at a position in [(p, m)] is above the one at [p]. *)
Definition leads (r : list A) (p m : nat) : Prop :=
  ∀ q a b, p < q < m → r !! p = Some a → r !! q = Some b → less a b = false.
End Sort.

(** ** Recommendation handler *)

Definition eventSlotsOf (eventID : string) (range : list (string * TimeSlot.t))
    : list TimeSlot.t :=
  foldl (λ eventSlots kv,
           if bool_decide (TimeSlot.EventID kv.2 = eventID)
           then eventSlots ++ [kv.2] else eventSlots)
        [] range.

Definition uniqueUsersOf (eventID : string) (range : list (string * UserAvailability.t))
    : gset string :=
  foldl (λ uniqueUsers kv,
           if bool_decide (UserAvailability.EventID kv.2 = eventID)
           then {[UserAvailability.UserID kv.2]} ∪ uniqueUsers else uniqueUsers)
        ∅ range.

(** The condition of the innermost loop. *)
Definition marksAvailable (eventID userID slotID : string) (avail : UserAvailability.t)
    : bool :=
  bool_decide (UserAvailability.EventID avail = eventID)
  && bool_decide (UserAvailability.UserID avail = userID)
  && bool_decide (UserAvailability.TimeSlotID avail = slotID)
  && bool_decide (UserAvailability.Status avail = "available").

(** The innermost loop: [isAvailable] becomes true at the first record that
    satisfies the condition, and the loop breaks there. *)
Definition isAvailable (eventID userID slotID : string)
    (range : list (string * UserAvailability.t)) : bool :=
  existsb (λ kv, marksAvailable eventID userID slotID kv.2) range.

(** The loop over [uniqueUsers]: each user is appended to one of the two
    slices. *)
Definition splitUsers (available : string → bool) (range : list string)
    : list string * list string :=
  foldl (λ acc userID,
           if available userID then (acc.1 ++ [userID], acc.2)
           else (acc.1, acc.2 ++ [userID]))
        ([], []) range.

Definition slotDuration (slot : TimeSlot.t) : F64.t :=
  Time.Minutes (Time.Sub (TimeSlot.EndTime slot) (TimeSlot.StartTime slot)).

Definition tooShort (event : Event.t) (slot : TimeSlot.t) : bool :=
  F64.ltb (slotDuration slot) (F64.of_int (Event.RequiredDuration event)).

Definition percentage (available known : nat) : F64.t :=
  F64.mul (F64.div (F64.of_int (Z.of_nat available)) (F64.of_int (Z.of_nat known)))
          (F64.of_int 100).

Section Scoring.
Variable o : RangeOrder.
Variable event : Event.t.
Variable eventID : string.
Variable uniqueUsers : gset string.

Definition scoreSlot (k : nat) (slot : TimeSlot.t) : Recommendation.t :=
  let users :=
    splitUsers (λ userID, isAvailable eventID userID (TimeSlot.ID slot)
                            (scanRange o k userID))
               (userRange o k) in
  Recommendation.mk slot users.1 users.2
    (percentage (length users.1) (size uniqueUsers)).

(** The loop over [eventSlots], from its iteration [k] on. *)
Fixpoint scoreSlots (k : nat) (eventSlots : list TimeSlot.t) : list Recommendation.t :=
  match eventSlots with
  | [] => []
  | slot :: rest =>
    if tooShort event slot then scoreSlots (S k) rest
    else scoreSlot k slot :: scoreSlots (S k) rest
  end.
End Scoring.

Definition lessAvailable (a b : Recommendation.t) : bool :=
  F64.ltb (Recommendation.AvailabilityPercentage a) (Recommendation.AvailabilityPercentage b).

(** Empty and nil slices are both the empty list. *)
Definition getRecommendations (o : RangeOrder) (eventID : string) (st : Store)
    : Response (list Recommendation.t) :=
  match events st !! eventID with
  | None => StatusNotFound "Event not found"
  | Some event =>
    let eventSlots := eventSlotsOf eventID (slotRange o) in
    if (length eventSlots =? 0)%nat then StatusOK []
    else
      let uniqueUsers := uniqueUsersOf eventID (availRange o) in
      if (size uniqueUsers =? 0)%nat then StatusOK []
      else
        StatusOK (exchangeSort lessAvailable
                    (scoreSlots o event eventID uniqueUsers 0 eventSlots))
  end.

(** [o] lists orders that the [range] statements of a call for [eventID] over
    [st] can take. *)
Record rangesOver (st : Store) (eventID : string) (o : RangeOrder) : Prop := {
  slotRange_ranges : ranges (timeSlots st) (slotRange o);
  availRange_ranges : ranges (userAvailability st) (availRange o);
  userRange_ranges : ∀ k, userRange o k ≡ₚ elements (uniqueUsersOf eventID (availRange o));
  scanRange_ranges : ∀ k u, ranges (userAvailability st) (scanRange o k u)
}.

(** The order in which every [range] statement follows [map_to_list] and
    [elements]. *)
Definition canonicalOrder (st : Store) (eventID : string) : RangeOrder :=
  let avails := map_to_list (userAvailability st) in
  mkRangeOrder (map_to_list (timeSlots st)) avails
    (λ _, elements (uniqueUsersOf eventID avails)) (λ _ _, avails).

(** ** Reading an answer *)

(** The percentages do not increase along the answer. *)
Definition sortedByPercentage (recs : list Recommendation.t) : Prop :=
  ∀ i j a b, i < j → recs !! i = Some a → recs !! j = Some b →
    F64.ltb (Recommendation.AvailabilityPercentage a)
            (Recommendation.AvailabilityPercentage b) = false.

(** Among recommendations of equal percentage, a slot that starts earlier
    comes first. *)
Definition tiesByStartTime (recs : list Recommendation.t) : Prop :=
  ∀ i j a b, i < j → recs !! i = Some a → recs !! j = Some b →
    Recommendation.AvailabilityPercentage a = Recommendation.AvailabilityPercentage b →
    Time.Before (TimeSlot.StartTime (Recommendation.TimeSlot b))
                (TimeSlot.StartTime (Recommendation.TimeSlot a)) = false.

(** [avail] is a stored record of [userID] for [slotID] within [eventID]. *)
Definition recordFor (st : Store) (eventID userID slotID : string)
    (avail : UserAvailability.t) : Prop :=
  (∃ id, userAvailability st !! id = Some avail)
  ∧ UserAvailability.EventID avail = eventID
  ∧ UserAvailability.UserID avail = userID
  ∧ UserAvailability.TimeSlotID avail = slotID.

(** [userID] appears in some stored record of [eventID]. *)
Definition knownUser (st : Store) (eventID userID : string) : Prop :=
  ∃ slotID avail, recordFor st eventID userID slotID avail.

(** [avail] is the record of [userID] for [slotID] with the most recent
    update. *)
Definition latestRecordFor (st : Store) (eventID userID slotID : string)
    (avail : UserAvailability.t) : Prop :=
  recordFor st eventID userID slotID avail
  ∧ ∀ other, recordFor st eventID userID slotID other → other ≠ avail →
      Time.Before (UserAvailability.UpdatedAt other) (UserAvailability.UpdatedAt avail) = true.

(** The availability of every user follows the latest record. *)
Definition resolvesFromLatest (st : Store) (eventID : string)
    (recs : list Recommendation.t) : Prop :=
  ∀ r userID avail,
    r ∈ recs →
    latestRecordFor st eventID userID (TimeSlot.ID (Recommendation.TimeSlot r)) avail →
    (userID ∈ Recommendation.AvailableUsers r
     ↔ UserAvailability.Status avail = "available").

(** What an answer says once the order of its lists is forgotten. *)
Definition summary (r : Recommendation.t)
    : TimeSlot.t * gset string * gset string * F64.t :=
  (Recommendation.TimeSlot r,
   list_to_set (Recommendation.AvailableUsers r),
   list_to_set (Recommendation.UnavailableUsers r),
   Recommendation.AvailabilityPercentage r).

(** ** Scenarios

    Stores built by calls of the handlers, and orders in which the [range]
    statements of [getRecommendations] may visit them. *)

(** A time of a body, written with [Z]. *)
Definition minutes (n : Z) : Time.t := Time.mk (n * Time.Minute) Time.UTC.

Definition after {A : Type} (run : Store → Response A * Store) (st : Store) : Store :=
  (run st).2.

Definition replay (steps : list (Store → Store)) : Store :=
  foldl (λ st step, step st) emptyStore steps.

Definition newEvent (uuid : string) (now : Time.t) (duration : Z) : Store → Store :=
  after (createEvent uuid now (Some (CreateEventRequest.mk "Sync" "" "org" duration))).

Definition newSlot (uuid : string) (now : Time.t) (eventID : string) (start stop : Time.t)
    : Store → Store :=
  after (createTimeSlot uuid now eventID (Some (CreateTimeSlotRequest.mk start stop))).

Definition respond (uuid : string) (now : Time.t) (eventID userID slotID status : string)
    : Store → Store :=
  after (createUserAvailability uuid now eventID userID
           (Some (UserAvailabilityRequest.mk slotID status))).

(** Two slots that every user can attend; the first one created starts
    later. *)
Definition tieStore : Store :=
  replay [ newEvent "e1" 1 60;
           newSlot "s1" 2 "e1" (minutes 120) (minutes 180);
           newSlot "s2" 3 "e1" (minutes 0) (minutes 60);
           respond "a1" 4 "e1" "u1" "s1" "available";
           respond "a2" 5 "e1" "u1" "s2" "available";
           respond "a3" 6 "e1" "u2" "s1" "available";
           respond "a4" 7 "e1" "u2" "s2" "available" ].

Definition lateSlot : TimeSlot.t := TimeSlot.mk "s1" "e1" (minutes 120) (minutes 180) 2 2.
Definition earlySlot : TimeSlot.t := TimeSlot.mk "s2" "e1" (minutes 0) (minutes 60) 3 3.

Definition tieRecords : list (string * UserAvailability.t) :=
  [ ("a1", UserAvailability.mk "a1" "u1" "e1" "s1" "available" 4 4);
    ("a2", UserAvailability.mk "a2" "u1" "e1" "s2" "available" 5 5);
    ("a3", UserAvailability.mk "a3" "u2" "e1" "s1" "available" 6 6);
    ("a4", UserAvailability.mk "a4" "u2" "e1" "s2" "available" 7 7) ].

Definition tieOrder : RangeOrder :=
  mkRangeOrder [("s1", lateSlot); ("s2", earlySlot)] tieRecords
    (λ _, ["u1"; "u2"]) (λ _ _, tieRecords).

Definition tieOrder' : RangeOrder :=
  mkRangeOrder [("s2", earlySlot); ("s1", lateSlot)] tieRecords
    (λ _, ["u2"; "u1"]) (λ _ _, tieRecords).

Definition tieAnswer : list Recommendation.t :=
  [ Recommendation.mk lateSlot ["u1"; "u2"] [] (percentage 2 2);
    Recommendation.mk earlySlot ["u1"; "u2"] [] (percentage 2 2) ].

Definition tieAnswer' : list Recommendation.t :=
  [ Recommendation.mk earlySlot ["u2"; "u1"] [] (percentage 2 2);
    Recommendation.mk lateSlot ["u2"; "u1"] [] (percentage 2 2) ].

(** One user answers twice for the same slot: available first, unavailable
    later. *)
Definition changedMindStore : Store :=
  replay [ newEvent "e1" 1 60;
           newSlot "s1" 2 "e1" (minutes 0) (minutes 90);
           respond "a1" 10 "e1" "u1" "s1" "available";
           respond "a2" 20 "e1" "u1" "s1" "unavailable" ].

Definition firstAnswer : UserAvailability.t :=
  UserAvailability.mk "a1" "u1" "e1" "s1" "available" 10 10.
Definition secondAnswer : UserAvailability.t :=
  UserAvailability.mk "a2" "u1" "e1" "s1" "unavailable" 20 20.

Definition onlySlot : TimeSlot.t := TimeSlot.mk "s1" "e1" (minutes 0) (minutes 90) 2 2.

Definition changedMindOrder : RangeOrder :=
  let records := [("a1", firstAnswer); ("a2", secondAnswer)] in
  mkRangeOrder [("s1", onlySlot)] records (λ _, ["u1"]) (λ _ _, records).

Definition changedMindAnswer : list Recommendation.t :=
  [ Recommendation.mk onlySlot ["u1"] [] (percentage 1 1) ].

(** An event with a slot of 90 minutes that two users out of three can
    attend and a slot of 30 minutes that all three can attend. *)
Definition surveyStore (duration : Z) : Store :=
  replay [ newEvent "e1" 1 duration;
           newSlot "sA" 2 "e1" (minutes 0) (minutes 90);
           newSlot "sB" 3 "e1" (minutes 100) (minutes 130);
           respond "a1" 4 "e1" "u1" "sA" "available";
           respond "a2" 5 "e1" "u2" "sA" "available";
           respond "a3" 6 "e1" "u3" "sA" "unavailable";
           respond "a4" 7 "e1" "u1" "sB" "available";
           respond "a5" 8 "e1" "u2" "sB" "available";
           respond "a6" 9 "e1" "u3" "sB" "available" ].

Definition longSlot : TimeSlot.t := TimeSlot.mk "sA" "e1" (minutes 0) (minutes 90) 2 2.
Definition shortSlot : TimeSlot.t := TimeSlot.mk "sB" "e1" (minutes 100) (minutes 130) 3 3.

Definition surveyOrder : RangeOrder :=
  let records :=
    [ ("a1", UserAvailability.mk "a1" "u1" "e1" "sA" "available" 4 4);
      ("a2", UserAvailability.mk "a2" "u2" "e1" "sA" "available" 5 5);
      ("a3", UserAvailability.mk "a3" "u3" "e1" "sA" "unavailable" 6 6);
      ("a4", UserAvailability.mk "a4" "u1" "e1" "sB" "available" 7 7);
      ("a5", UserAvailability.mk "a5" "u2" "e1" "sB" "available" 8 8);
      ("a6", UserAvailability.mk "a6" "u3" "e1" "sB" "available" 9 9) ] in
  mkRangeOrder [("sA", longSlot); ("sB", shortSlot)] records
    (λ _, ["u1"; "u2"; "u3"]) (λ _ _, records).

(** The answer when the event takes 60 minutes: the short slot is left
    out. *)
Definition surveyAnswer60 : list Recommendation.t :=
  [ Recommendation.mk longSlot ["u1"; "u2"] ["u3"] (percentage 2 3) ].

(** The answer when the event takes 30 minutes: the slot visited second
    comes first. *)
Definition surveyAnswer30 : list Recommendation.t :=
  [ Recommendation.mk shortSlot ["u1"; "u2"; "u3"] [] (percentage 3 3);
    Recommendation.mk longSlot ["u1"; "u2"] ["u3"] (percentage 2 3) ].

(** A user of event [e1] answers with a slot of event [e2]. *)
Definition foreignSlotStore : Store :=
  replay [ newEvent "e1" 1 60;
           newEvent "e2" 2 30;
           newSlot "s1" 3 "e1" (minutes 0) (minutes 60);
           newSlot "s2" 4 "e2" (minutes 0) (minutes 30);
           respond "a1" 5 "e1" "u1" "s1" "available" ].

(** An event with a slot and no answer, and an event without slots. *)
Definition quietStore : Store :=
  replay [ newEvent "e1" 1 60;
           newEvent "e2" 2 60;
           newSlot "s1" 3 "e1" (minutes 0) (minutes 60) ].

Definition quietOrder : RangeOrder :=
  mkRangeOrder [("s1", TimeSlot.mk "s1" "e1" (minutes 0) (minutes 60) 3 3)] []
    (λ _, []) (λ _ _, []).

(** ** Reading an update *)

(** Some update of a stored event changes what [field] reads. *)
Definition fieldMutable {A : Type} (field : Event.t → A) : Prop :=
  ∃ now eventID body st stored updated,
    events st !! eventID = Some stored
    ∧ events (updateEvent now eventID body st).2 !! eventID = Some updated
    ∧ field updated ≠ field stored.

#[global] Instance TimeSlot_eq_dec : EqDecision TimeSlot.t.
Proof. solve_decision. Defined.

#[global] Instance UserAvailability_eq_dec : EqDecision UserAvailability.t.
Proof. solve_decision. Defined.

(** ** The remaining handlers

    The handlers that delete answer [c.JSON(http.StatusNoContent, nil)] or a
    404. *)

Inductive DeleteResponse : Type :=
  | StatusNoContent
  | DeleteNotFound (error : string).

(** *** Events *)

(** The slice that [listEvents] fills while it ranges over [events]. *)
Definition listEvents (range : list (string * Event.t)) : Response (list Event.t) :=
  StatusOK (foldl (λ eventList kv, eventList ++ [kv.2]) [] range).

Definition getEvent (eventID : string) (st : Store) : Response Event.t :=
  match events st !! eventID with
  | None => StatusNotFound "Event not found"
  | Some event => StatusOK event
  end.

Definition deleteEvent (eventID : string) (st : Store) : DeleteResponse * Store :=
  match events st !! eventID with
  | None => (DeleteNotFound "Event not found", st)
  | Some _ =>
    (StatusNoContent,
     mkStore (delete eventID (events st)) (timeSlots st) (userAvailability st))
  end.

(** *** Time slots

    [listTimeSlots] runs the loop that [getRecommendations] starts with.
    [updateTimeSlot] and [deleteTimeSlot] are routed below an event but read
    the [timeslotId] of the path only. *)

Definition listTimeSlots (eventID : string) (range : list (string * TimeSlot.t))
    : Response (list TimeSlot.t) :=
  StatusOK (eventSlotsOf eventID range).

Definition updateTimeSlot (now : Time.t) (eventID timeslotID : string)
    (body : option CreateTimeSlotRequest.t) (st : Store) : Response TimeSlot.t * Store :=
  match timeSlots st !! timeslotID with
  | None => (StatusNotFound "Time slot not found", st)
  | Some stored =>
    match ShouldBindJSON CreateTimeSlotRequest.valid body with
    | None => (StatusBadRequest, st)
    | Some req =>
      if Time.Before (CreateTimeSlotRequest.EndTime req) (CreateTimeSlotRequest.StartTime req)
      then (StatusBadRequest, st)
      else
        let slot := TimeSlot.mk (TimeSlot.ID stored) (TimeSlot.EventID stored)
                      (CreateTimeSlotRequest.StartTime req)
                      (CreateTimeSlotRequest.EndTime req)
                      (TimeSlot.CreatedAt stored) now in
        (StatusOK slot,
         mkStore (events st) (<[timeslotID := slot]> (timeSlots st)) (userAvailability st))
    end
  end.

Definition deleteTimeSlot (eventID timeslotID : string) (st : Store)
    : DeleteResponse * Store :=
  match timeSlots st !! timeslotID with
  | None => (DeleteNotFound "Time slot not found", st)
  | Some _ =>
    (StatusNoContent,
     mkStore (events st) (delete timeslotID (timeSlots st)) (userAvailability st))
  end.

(** *** Availability records *)

Definition getUserAvailability (eventID userID : string)
    (range : list (string * UserAvailability.t)) : Response (list UserAvailability.t) :=
  StatusOK
    (foldl (λ availabilityList kv,
              if bool_decide (UserAvailability.EventID kv.2 = eventID)
                 && bool_decide (UserAvailability.UserID kv.2 = userID)
              then availabilityList ++ [kv.2] else availabilityList)
           [] range).

(** The condition of the search loops of [updateUserAvailability] and
    [deleteUserAvailability]. *)
Definition isRecordOf (eventID userID timeslotID : string) (avail : UserAvailability.t)
    : bool :=
  bool_decide (UserAvailability.EventID avail = eventID)
  && bool_decide (UserAvailability.UserID avail = userID)
  && bool_decide (UserAvailability.TimeSlotID avail = timeslotID).

(** The search loop: the first entry of the visit that satisfies the
    condition, where the loop breaks. *)
Definition findRecord (eventID userID timeslotID : string)
    (range : list (string * UserAvailability.t)) : option (string * UserAvailability.t) :=
  find (λ kv, isRecordOf eventID userID timeslotID kv.2) range.

(** The record is searched before the body is bound, and it is written
    back under its own [ID]. *)
Definition updateUserAvailability (range : list (string * UserAvailability.t))
    (now : Time.t) (eventID userID timeslotID : string)
    (body : option UserAvailabilityRequest.t) (st : Store)
    : Response UserAvailability.t * Store :=
  match findRecord eventID userID timeslotID range with
  | None => (StatusNotFound "Availability record not found", st)
  | Some (_, targetAvail) =>
    match ShouldBindJSON UserAvailabilityRequest.valid body with
    | None => (StatusBadRequest, st)
    | Some req =>
      let updated := UserAvailability.mk
                       (UserAvailability.ID targetAvail)
                       (UserAvailability.UserID targetAvail)
                       (UserAvailability.EventID targetAvail)
                       (UserAvailability.TimeSlotID targetAvail)
                       (UserAvailabilityRequest.Status req)
                       (UserAvailability.CreatedAt targetAvail) now in
      (StatusOK updated,
       mkStore (events st) (timeSlots st)
               (<[UserAvailability.ID updated := updated]> (userAvailability st)))
    end
  end.

Definition deleteUserAvailability (range : list (string * UserAvailability.t))
    (eventID userID timeslotID : string) (st : Store) : DeleteResponse * Store :=
  match findRecord eventID userID timeslotID range with
  | None => (DeleteNotFound "Availability record not found", st)
  | Some (targetID, _) =>
    (StatusNoContent,
     mkStore (events st) (timeSlots st) (delete targetID (userAvailability st)))
  end.

(** ** The router

    The requests that write, with what each handler reads from its
    environment, and the status code and store that serving one leaves. *)

Inductive Request : Type :=
  | CreateEvent (uuid : string) (now : Time.t) (body : option CreateEventRequest.t)
  | UpdateEvent (now : Time.t) (eventID : string) (body : option CreateEventRequest.t)
  | DeleteEvent (eventID : string)
  | CreateTimeSlot (uuid : string) (now : Time.t) (eventID : string)
      (body : option CreateTimeSlotRequest.t)
  | UpdateTimeSlot (now : Time.t) (eventID timeslotID : string)
      (body : option CreateTimeSlotRequest.t)
  | DeleteTimeSlot (eventID timeslotID : string)
  | CreateUserAvailability (uuid : string) (now : Time.t) (eventID userID : string)
      (body : option UserAvailabilityRequest.t)
  | UpdateUserAvailability (range : list (string * UserAvailability.t)) (now : Time.t)
      (eventID userID timeslotID : string) (body : option UserAvailabilityRequest.t)
  | DeleteUserAvailability (range : list (string * UserAvailability.t))
      (eventID userID timeslotID : string).

Definition statusCode {A : Type} (response : Response A) : nat :=
  match response with
  | StatusOK _ => 200
  | StatusCreated _ => 201
  | StatusBadRequest => 400
  | StatusNotFound _ => 404
  end.

Definition deleteStatusCode (response : DeleteResponse) : nat :=
  match response with
  | StatusNoContent => 204
  | DeleteNotFound _ => 404
  end.

Definition serve (request : Request) (st : Store) : nat * Store :=
  match request with
  | CreateEvent uuid now body =>
    prod_map statusCode id (createEvent uuid now body st)
  | UpdateEvent now eventID body =>
    prod_map statusCode id (updateEvent now eventID body st)
  | DeleteEvent eventID =>
    prod_map deleteStatusCode id (deleteEvent eventID st)
  | CreateTimeSlot uuid now eventID body =>
    prod_map statusCode id (createTimeSlot uuid now eventID body st)
  | UpdateTimeSlot now eventID timeslotID body =>
    prod_map statusCode id (updateTimeSlot now eventID timeslotID body st)
  | DeleteTimeSlot eventID timeslotID =>
    prod_map deleteStatusCode id (deleteTimeSlot eventID timeslotID st)
  | CreateUserAvailability uuid now eventID userID body =>
    prod_map statusCode id (createUserAvailability uuid now eventID userID body st)
  | UpdateUserAvailability range now eventID userID timeslotID body =>
    prod_map statusCode id
      (updateUserAvailability range now eventID userID timeslotID body st)
  | DeleteUserAvailability range eventID userID timeslotID =>
    prod_map deleteStatusCode id
      (deleteUserAvailability range eventID userID timeslotID st)
  end.

(** The visit that a request carries is a visit of the stored records. *)
Definition admissible (request : Request) (st : Store) : Prop :=
  match request with
  | UpdateUserAvailability range _ _ _ _ _
  | DeleteUserAvailability range _ _ _ => ranges (userAvailability st) range
  | _ => True
  end.

(** The stores that the server can hold: it starts with empty maps and
    serves one request after the other. *)
Inductive reachable : Store → Prop :=
  | reachable_empty : reachable emptyStore
  | reachable_serve request st :
      reachable st → admissible request st → reachable (serve request st).2.

(** ** Reading a store *)

(** Every entry is stored under its own identifier. *)
Definition wellKeyed (st : Store) : Prop :=
  (∀ id event, events st !! id = Some event → Event.ID event = id)
  ∧ (∀ id slot, timeSlots st !! id = Some slot → TimeSlot.ID slot = id)
  ∧ (∀ id avail, userAvailability st !! id = Some avail → UserAvailability.ID avail = id).

(** The stored values have the form that binding lets through. *)
Definition validated (st : Store) : Prop :=
  (∀ id event, events st !! id = Some event →
     Event.Title event ≠ "" ∧ Event.OrganizerID event ≠ ""
     ∧ Event.RequiredDuration event ≠ 0%Z ∧ Event.Status event = "active")
  ∧ (∀ id slot, timeSlots st !! id = Some slot →
       (TimeSlot.StartTime slot ≤ TimeSlot.EndTime slot)%Z)
  ∧ (∀ id avail, userAvailability st !! id = Some avail →
       UserAvailability.TimeSlotID avail ≠ ""
       ∧ (UserAvailability.Status avail = "available"
          ∨ UserAvailability.Status avail = "unavailable")).

(** A slot of the event that the slot loop does not skip. *)
Definition eligible (event : Event.t) (eventID : string) (slot : TimeSlot.t) : Prop :=
  TimeSlot.EventID slot = eventID ∧ tooShort event slot = false.

#[global] Instance eligible_dec event eventID slot : Decision (eligible event eventID slot).
Proof. unfold eligible. apply _. Defined.

(** The store after serving [requests] in turn, from the empty store. *)
Definition run (requests : list Request) : Store :=
  foldl (λ st request, (serve request st).2) emptyStore requests.

(** The requests that build [changedMindStore]. *)
Definition changedMindRequests : list Request :=
  [ CreateEvent "e1" 1 (Some (CreateEventRequest.mk "Sync" "" "org" 60));
    CreateTimeSlot "s1" 2 "e1" (Some (CreateTimeSlotRequest.mk (minutes 0) (minutes 90)));
    CreateUserAvailability "a1" 10 "e1" "u1"
      (Some (UserAvailabilityRequest.mk "s1" "available"));
    CreateUserAvailability "a2" 20 "e1" "u1"
      (Some (UserAvailabilityRequest.mk "s1" "unavailable")) ].

#[global] Instance Event_eq_dec : EqDecision Event.t.
Proof. solve_decision. Defined.

Definition syncEvent : Event.t := Event.mk "e1" "Sync" "" "org" 60 "active" 1 1.

(** One user with one answer. *)
Definition onceStore : Store :=
  replay [ newEvent "e1" 1 60;
           newSlot "s1" 2 "e1" (minutes 0) (minutes 90);
           respond "a1" 10 "e1" "u1" "s1" "available" ].

(** An event that requires 262145 minutes, and a slot that ends one
    nanosecond before 262145 minutes have passed. *)
Definition almostEvent : Event.t := Event.mk "e1" "Sync" "" "org" 262145 "active" 1 1.

Definition almostSlot : TimeSlot.t :=
  TimeSlot.mk "s1" "e1" (minutes 0) (Time.mk (262145 * Time.Minute - 1) Time.UTC) 2 2.

Definition almostStore : Store :=
  replay [ newEvent "e1" 1 262145;
           newSlot "s1" 2 "e1" (TimeSlot.StartTime almostSlot) (TimeSlot.EndTime almostSlot);
           respond "a1" 3 "e1" "u1" "s1" "available" ].

Definition almostOrder : RangeOrder :=
  let records := [("a1", UserAvailability.mk "a1" "u1" "e1" "s1" "available" 3 3)] in
  mkRangeOrder [("s1", almostSlot)] records (λ _, ["u1"]) (λ _ _, records).

(** * Properties *)

(** ** The order of float64 *)

Lemma compare_cont_Eq (m1 m2 : positive) : Pos.compare_cont Eq m1 m2 = (m1 ?= m2)%positive.
Proof. reflexivity. Qed.

Ltac order_cases :=
  repeat match goal with
  | H : context [Pos.compare_cont Eq ?a ?b] |- _ =>
      rewrite (compare_cont_Eq a b) in H
  | |- context [Pos.compare_cont Eq ?a ?b] => rewrite (compare_cont_Eq a b)
  | H : context [(?a ?= ?b)%Z] |- _ => destruct (Z.compare_spec a b); simpl in H
  | |- context [(?a ?= ?b)%Z] => destruct (Z.compare_spec a b); simpl
  | H : context [(?a ?= ?b)%positive] |- _ => destruct (Pos.compare_spec a b); simpl in H
  | |- context [(?a ?= ?b)%positive] => destruct (Pos.compare_spec a b); simpl
  end;
  try discriminate; try reflexivity; try lia.

Lemma ltb_irrefl (x : F64.t) : F64.ltb x x = false.
Proof.
  unfold F64.ltb, SFltb, SFcompare.
  destruct x as [[]|[]| |[] m e]; try reflexivity;
    order_cases.
Qed.

Lemma ltb_trans (x y z : F64.t) :
  F64.ltb x y = true → F64.ltb y z = true → F64.ltb x z = true.
Proof.
  unfold F64.ltb, SFltb, SFcompare.
  destruct x as [[]|[]| |[] m1 e1], y as [[]|[]| |[] m2 e2], z as [[]|[]| |[] m3 e3];
    simpl; try discriminate; try reflexivity;
    intros H1 H2; order_cases.
Qed.

Lemma ltb_asym (x y : F64.t) : F64.ltb x y = true → F64.ltb y x = false.
Proof.
  intros H. destruct (F64.ltb y x) eqn:E; [|done].
  by rewrite <-(ltb_irrefl x), (ltb_trans x y x).
Qed.

(** ** Integers in float64 *)

Lemma digits2_pos_size (p : positive) : digits2_pos p = Pos.size p.
Proof. induction p; simpl; congruence. Qed.

Lemma digits2_pos_iter_xO (p k : positive) :
  digits2_pos (Pos.iter xO p k) = (digits2_pos p + k)%positive.
Proof.
  induction k as [|k IH] using Pos.peano_ind.
  - simpl. lia.
  - rewrite Pos.iter_succ. simpl. rewrite IH. lia.
Qed.

Lemma iter_xO_mul (p k : positive) : Pos.iter xO p k = (p * 2 ^ k)%positive.
Proof.
  induction k as [|k IH] using Pos.peano_ind.
  - simpl. lia.
  - rewrite Pos.iter_succ, IH, Pos.pow_succ_r. lia.
Qed.

Lemma binary_round_aux_exact (s : bool) (m : positive) (e : Z) :
  digits2_pos m = 53%positive → (-1074 ≤ e ≤ 971)%Z →
  binary_round_aux F64.prec F64.emax s (Z.pos m) e loc_Exact = S754_finite s m e.
Proof.
  intros Hm He.
  assert (shr_fexp F64.prec F64.emax (Z.pos m) e loc_Exact
          = (Build_shr_record (Z.pos m) false false, e)) as Hshr.
  { unfold shr_fexp, fexp, emin, Zdigits2, F64.prec, F64.emax. rewrite Hm.
    replace (Z.max (53 + e - 53) (3 - 1024 - 53) - e)%Z with 0%Z by lia.
    reflexivity. }
  unfold binary_round_aux. rewrite Hshr. simpl. rewrite Hshr. simpl.
  unfold F64.emax, F64.prec.
  destruct (Z.leb_spec e (1024 - 53)); [done|lia].
Qed.

Lemma digits2_pos_mantissa53 (p : positive) :
  (Z.pos (digits2_pos p) ≤ 53)%Z → digits2_pos (mantissa53 p) = 53%positive.
Proof.
  intros Hd. unfold mantissa53.
  destruct (Z.pos (digits2_pos p) - 53)%Z as [|k|k] eqn:Hk; try lia.
  rewrite digits2_pos_iter_xO. lia.
Qed.

Lemma of_int_pos (s : bool) (p : positive) :
  (Z.pos (digits2_pos p) ≤ 53)%Z →
  binary_round F64.prec F64.emax s p 0
  = S754_finite s (mantissa53 p) (Z.pos (digits2_pos p) - 53).
Proof.
  intros Hd. unfold binary_round.
  assert (shl_align p 0 (fexp F64.prec F64.emax (Z.pos (digits2_pos p) + 0))
          = (mantissa53 p, (Z.pos (digits2_pos p) - 53)%Z)) as ->.
  { unfold shl_align, fexp, emin, F64.prec, F64.emax, mantissa53.
    replace (Z.max (Z.pos (digits2_pos p) + 0 - 53) (3 - 1024 - 53) - 0)%Z
      with (Z.pos (digits2_pos p) - 53)%Z by lia.
    replace (Z.max (Z.pos (digits2_pos p) + 0 - 53) (3 - 1024 - 53))%Z
      with (Z.pos (digits2_pos p) - 53)%Z by lia.
    destruct (Z.pos (digits2_pos p) - 53)%Z eqn:Hk; try reflexivity; lia. }
  apply binary_round_aux_exact; [by apply digits2_pos_mantissa53|lia].
Qed.

Lemma digits2_pos_le_53 (p : positive) :
  (Z.pos p < 2 ^ 53)%Z → (Z.pos (digits2_pos p) ≤ 53)%Z.
Proof.
  intros Hp. rewrite digits2_pos_size.
  pose proof (Pos.size_le p) as Hle.
  apply Pos2Z.pos_le_pos in Hle. rewrite Pos2Z.inj_pow in Hle.
  change (Z.pos p~0) with (2 * Z.pos p)%Z in Hle.
  assert (2 ^ Z.pos (Pos.size p) < 2 ^ 54)%Z as Hlt.
  { change (2 ^ 54)%Z with (2 * 2 ^ 53)%Z. lia. }
  apply Z.pow_lt_mono_r_iff in Hlt; lia.
Qed.

Lemma lt_by_digits (p1 p2 : positive) :
  (digits2_pos p1 < digits2_pos p2)%positive → (p1 < p2)%positive.
Proof.
  rewrite (digits2_pos_size p1), (digits2_pos_size p2). intros Hd.
  pose proof (Pos.size_gt p1) as Hgt. pose proof (Pos.size_le p2) as Hle.
  apply Pos2Z.pos_lt_pos in Hgt. apply Pos2Z.pos_le_pos in Hle.
  rewrite Pos2Z.inj_pow in Hgt, Hle.
  change (Z.pos p2~0) with (2 * Z.pos p2)%Z in Hle.
  assert (2 * 2 ^ Z.pos (Pos.size p1) ≤ 2 ^ Z.pos (Pos.size p2))%Z.
  { rewrite <-Z.pow_succ_r by lia. apply Z.pow_le_mono_r; lia. }
  lia.
Qed.

Lemma compare_mantissa53 (p1 p2 : positive) :
  digits2_pos p1 = digits2_pos p2 →
  (mantissa53 p1 ?= mantissa53 p2)%positive = (p1 ?= p2)%positive.
Proof.
  intros Hd. unfold mantissa53. rewrite Hd.
  destruct (Z.pos (digits2_pos p2) - 53)%Z; try done.
  rewrite !iter_xO_mul. apply Pos.mul_compare_mono_r.
Qed.

Lemma compare_finite_of_int (p1 p2 : positive) :
  match (Z.pos (digits2_pos p1) - 53 ?= Z.pos (digits2_pos p2) - 53)%Z with
  | Lt => Lt
  | Gt => Gt
  | Eq => Pos.compare_cont Eq (mantissa53 p1) (mantissa53 p2)
  end = (p1 ?= p2)%positive.
Proof.
  destruct (Z.compare_spec (Z.pos (digits2_pos p1) - 53) (Z.pos (digits2_pos p2) - 53))
    as [Hd|Hd|Hd].
  - rewrite compare_cont_Eq. apply compare_mantissa53. lia.
  - symmetry. apply Pos.compare_lt_iff, lt_by_digits. lia.
  - symmetry. apply Pos.compare_gt_iff, lt_by_digits. lia.
Qed.

(** On integers below 2^53 in absolute value the order of float64 is the
    order of the integers. *)
Lemma SFcompare_of_int (a b : Z) :
  (Z.abs a < 2 ^ 53)%Z → (Z.abs b < 2 ^ 53)%Z →
  SFcompare (F64.of_int a) (F64.of_int b) = Some (a ?= b)%Z.
Proof.
  intros Ha Hb. unfold F64.of_int, binary_normalize.
  destruct a as [|p1|p1], b as [|p2|p2];
    rewrite ?of_int_pos by (apply digits2_pos_le_53; lia);
    simpl; try reflexivity.
  - by rewrite compare_finite_of_int.
  - rewrite <-(compare_finite_of_int p1 p2).
    by destruct (_ ?= _)%Z.
Qed.

(** A positive integer below 2^53 is a finite float64 that is not zero. *)
Lemma of_int_finite (n : Z) :
  (0 < n)%Z → (n < 2 ^ 53)%Z → ∃ m e, F64.of_int n = S754_finite false m e.
Proof.
  intros Hpos Hn. destruct n as [|p|p]; try lia.
  unfold F64.of_int, binary_normalize.
  rewrite of_int_pos by (apply digits2_pos_le_53; lia). eauto.
Qed.

Lemma ltb_of_int (a b : Z) :
  (Z.abs a < 2 ^ 53)%Z → (Z.abs b < 2 ^ 53)%Z →
  F64.ltb (F64.of_int a) (F64.of_int b) = (a <? b)%Z.
Proof.
  intros Ha Hb. unfold F64.ltb, SFltb, Z.ltb.
  rewrite SFcompare_of_int by done. by destruct (a ?= b)%Z.
Qed.

(** A whole number of minutes is its own [Minutes]. *)
Lemma Minutes_whole (m : Z) :
  (Z.abs m < 2 ^ 53)%Z → Time.Minutes (m * Time.Minute) = F64.of_int m.
Proof.
  intros Hm. unfold Time.Minutes.
  rewrite Z.quot_mul, Z.rem_mul by done.
  replace (F64.div (F64.of_int 0) (F64.of_int Time.Minute)) with (S754_zero false)
    by (vm_compute; reflexivity).
  unfold F64.of_int, binary_normalize.
  destruct m as [|p|p]; [reflexivity| |];
    by rewrite of_int_pos by (apply digits2_pos_le_53; lia).
Qed.

(** For a slot of a whole number of minutes the test of the slot loop is
    the comparison of the two numbers of minutes.  A length with a fraction
    of a minute is compared after [Minutes] has rounded it to float64. *)
Lemma tooShort_whole_minutes (event : Event.t) (slot : TimeSlot.t) (m : Z) :
  (TimeSlot.EndTime slot - TimeSlot.StartTime slot = m * Time.Minute)%Z →
  (0 ≤ m * Time.Minute ≤ Time.maxDuration)%Z →
  (Z.abs (Event.RequiredDuration event) < 2 ^ 53)%Z →
  tooShort event slot = (m <? Event.RequiredDuration event)%Z.
Proof.
  intros Hlen Hm Hreq. unfold tooShort, slotDuration, Time.Sub. rewrite Hlen.
  assert ((m * Time.Minute <? Time.minDuration)%Z = false) as ->.
  { apply Z.ltb_ge. unfold Time.minDuration. lia. }
  assert ((Time.maxDuration <? m * Time.Minute)%Z = false) as ->
    by (apply Z.ltb_ge; lia).
  assert (Z.abs m < 2 ^ 53)%Z.
  { unfold Time.maxDuration, Time.Minute in Hm. lia. }
  by rewrite Minutes_whole, ltb_of_int.
Qed.

(** ** Results that are numbers *)

Lemma shr_1_nonneg (mrs : shr_record) :
  (0 ≤ shr_m mrs)%Z → (0 ≤ shr_m (shr_1 mrs))%Z.
Proof. destruct mrs as [[|[p|p|]|p] r s]; simpl; lia. Qed.

Lemma iter_pos_shr_1_nonneg (n : positive) (mrs : shr_record) :
  (0 ≤ shr_m mrs)%Z → (0 ≤ shr_m (SpecFloat.iter_pos shr_1 n mrs))%Z.
Proof.
  revert mrs. induction n as [n IH|n IH|]; intros mrs Hm; simpl;
    auto using shr_1_nonneg.
Qed.

Lemma shr_fexp_nonneg (m e : Z) (l : location) :
  (0 ≤ m)%Z → (0 ≤ shr_m (shr_fexp F64.prec F64.emax m e l).1)%Z.
Proof.
  intros Hm. unfold shr_fexp, shr.
  assert (0 ≤ shr_m (shr_record_of_loc m l))%Z by (by destruct l as [|[]]).
  destruct (_ - e)%Z; simpl; auto using iter_pos_shr_1_nonneg.
Qed.

Lemma round_nearest_even_nonneg (m : Z) (l : location) :
  (0 ≤ m)%Z → (0 ≤ round_nearest_even m l)%Z.
Proof. intros Hm. destruct l as [|[]]; simpl; try destruct (Z.even m); lia. Qed.

(** Rounding a mantissa that is not negative never gives NaN. *)
Lemma binary_round_aux_not_nan (s : bool) (m e : Z) (l : location) :
  (0 ≤ m)%Z → F64.is_nan (binary_round_aux F64.prec F64.emax s m e l) = false.
Proof.
  intros Hm. unfold binary_round_aux.
  pose proof (shr_fexp_nonneg m e l Hm) as H1.
  destruct (shr_fexp F64.prec F64.emax m e l) as [mrs' e']. simpl in H1.
  pose proof (shr_fexp_nonneg _ e' loc_Exact
                (round_nearest_even_nonneg _ (loc_of_shr_record mrs') H1)) as H2.
  destruct (shr_fexp F64.prec F64.emax _ e' loc_Exact) as [mrs'' e'']. simpl in H2.
  destruct (shr_m mrs''); [done| |lia]. by destruct (_ <=? _)%Z.
Qed.

Lemma div_finite_not_nan (s1 s2 : bool) (m1 m2 : positive) (e1 e2 : Z) :
  F64.is_nan (F64.div (S754_finite s1 m1 e1) (S754_finite s2 m2 e2)) = false.
Proof.
  unfold F64.div, SFdiv, SFdiv_core_binary.
  set (s := (_ - _ - _)%Z).
  set (m' := match s with Z.pos _ => Z.shiftl (Z.pos m1) s | 0%Z => Z.pos m1 | _ => 0%Z end).
  assert (0 ≤ m')%Z.
  { subst m'. destruct s; try lia. apply Z.shiftl_nonneg. lia. }
  pose proof (Z.div_pos m' (Z.pos m2)) as Hq. unfold Z.div in Hq.
  destruct (Z.div_eucl m' (Z.pos m2)) as [q r].
  apply binary_round_aux_not_nan. apply Hq; lia.
Qed.

(** With fewer than 2^53 known users the percentage is a number. *)
Lemma percentage_not_nan (available known : nat) :
  available ≤ known → known ≠ 0 → (Z.of_nat known < 2 ^ 53)%Z →
  F64.is_nan (percentage available known) = false.
Proof.
  intros Hle Hknown Hbound. unfold percentage.
  destruct (of_int_finite (Z.of_nat known)) as (m2 & e2 & ->); [lia..|].
  assert (F64.is_nan (F64.div (F64.of_int (Z.of_nat available)) (S754_finite false m2 e2))
          = false) as Hdiv.
  { destruct available as [|n]; [reflexivity|].
    destruct (of_int_finite (Z.of_nat (S n))) as (m1 & e1 & ->); [lia..|].
    apply div_finite_not_nan. }
  replace (F64.of_int 100) with (S754_finite false 7036874417766400 (-46))
    by (vm_compute; reflexivity).
  destruct (F64.div _ _) as [s|s| |s m e]; try done.
  apply binary_round_aux_not_nan. lia.
Qed.

Lemma SFcompare_antisym (x y : F64.t) :
  SFcompare y x = CompOpp <$> SFcompare x y.
Proof.
  destruct x as [[]|[]| |[] m1 e1], y as [[]|[]| |[] m2 e2]; try reflexivity; simpl;
    rewrite (compare_cont_Eq m1 m2), (compare_cont_Eq m2 m1),
      (Z.compare_antisym e1 e2), (Pos.compare_antisym m1 m2);
    by destruct (e1 ?= e2)%Z, (m1 ?= m2)%positive.
Qed.

(** Between numbers, not below is above or equal. *)
Lemma not_ltb_leb (x y : F64.t) :
  F64.is_nan x = false → F64.is_nan y = false →
  F64.ltb x y = false → F64.leb y x = true.
Proof.
  unfold F64.ltb, F64.leb, SFltb, SFleb. rewrite (SFcompare_antisym x y).
  intros Hx Hy. destruct (SFcompare x y) as [[]|] eqn:Hc; simpl; try done.
  intros _. destruct x as [[]|[]| |[]], y as [[]|[]| |[]]; done.
Qed.

(** ** The exchange sort

    [less] needs to be a strict order only. *)

Section SortProperties.
Context {A : Type} (less : A → A → bool).
Hypothesis less_asym : ∀ x y, less x y = true → less y x = false.
Hypothesis less_trans : ∀ x y z, less x y = true → less y z = true → less x z = true.

Implicit Types r : list A.

Lemma length_swap i j r : length (swap i j r) = length r.
Proof.
  unfold swap. destruct (r !! i), (r !! j); try done.
  by rewrite !length_insert.
Qed.

Lemma swap_Permutation i j r : swap i j r ≡ₚ r.
Proof.
  unfold swap. destruct (r !! i) eqn:Hi, (r !! j) eqn:Hj; try done.
  by apply Permutation_insert_swap.
Qed.

Lemma lookup_swap i j r x y q :
  r !! i = Some x → r !! j = Some y →
  swap i j r !! q =
    if decide (q = j) then Some x else if decide (q = i) then Some y else r !! q.
Proof.
  intros Hi Hj. unfold swap. rewrite Hi, Hj.
  pose proof (lookup_lt_Some _ _ _ Hi). pose proof (lookup_lt_Some _ _ _ Hj).
  destruct (decide (q = j)) as [->|].
  { by rewrite list_lookup_insert_eq by (by rewrite length_insert). }
  rewrite list_lookup_insert_ne by done.
  destruct (decide (q = i)) as [->|].
  - by rewrite list_lookup_insert_eq.
  - by rewrite list_lookup_insert_ne.
Qed.

Lemma length_sortStep i r j : length (sortStep less i r j) = length r.
Proof.
  unfold sortStep. destruct (r !! i), (r !! j); try done.
  case_match; [apply length_swap | done].
Qed.

Lemma sortStep_Permutation i r j : sortStep less i r j ≡ₚ r.
Proof.
  unfold sortStep. destruct (r !! i), (r !! j); try done.
  case_match; [apply swap_Permutation | done].
Qed.

(** One comparison extends the stretch that position [i] leads. *)
Lemma sortStep_leads i r j :
  i < j → leads less r i j → leads less (sortStep less i r j) i (S j).
Proof.
  intros Hij Hlead q a b Hq. unfold sortStep.
  destruct (r !! i) as [x|] eqn:Hi; [|by rewrite Hi].
  destruct (r !! j) as [y|] eqn:Hj.
  - destruct (less x y) eqn:Hxy.
    + rewrite !(lookup_swap i j r x y) by done.
      repeat case_decide; try lia; intros; simplify_eq.
      * by apply less_asym.
      * destruct (less a b) eqn:Hab; [|done].
        rewrite <-(Hlead q x b), (less_trans x a b); auto with lia.
    + intros Ha Hb. destruct (decide (q = j)) as [->|]; [congruence|].
      apply (Hlead q); auto with lia.
  - intros Ha Hb. destruct (decide (q = j)) as [->|]; [congruence|].
    apply (Hlead q); auto with lia.
Qed.

(** A comparison at [i] and [j] leaves the positions before [i] leading. *)
Lemma sortStep_leads_before i r j p :
  p < i → p < j → leads less r p (length r) → leads less (sortStep less i r j) p (length r).
Proof.
  intros Hpi Hpj Hlead q a b Hq. unfold sortStep.
  destruct (r !! i) as [x|] eqn:Hi; [|by apply Hlead].
  destruct (r !! j) as [y|] eqn:Hj; [|by apply Hlead].
  destruct (less x y); [|by apply Hlead].
  rewrite !(lookup_swap i j r x y) by done.
  pose proof (lookup_lt_Some _ _ _ Hi). pose proof (lookup_lt_Some _ _ _ Hj).
  repeat case_decide; try lia; intros; simplify_eq.
  - apply (Hlead i); auto with lia.
  - apply (Hlead j); auto with lia.
  - apply (Hlead q); auto with lia.
Qed.

Lemma sortInner_steps i r n :
  let r' := foldl (sortStep less i) r (seq (S i) n) in
  length r' = length r ∧ r' ≡ₚ r ∧ leads less r' i (S i + n)
  ∧ ∀ p, p < i → leads less r p (length r) → leads less r' p (length r).
Proof.
  cbv zeta. induction n as [|n IH].
  { simpl. split_and!; [done..| |done]. intros q a b Hq. lia. }
  rewrite seq_S, foldl_app. cbn [foldl].
  destruct IH as (Hlen & Hperm & Hi & Hbefore).
  set (r' := foldl (sortStep less i) r (seq (S i) n)) in *.
  split_and!.
  - by rewrite length_sortStep.
  - by rewrite sortStep_Permutation.
  - replace (S i + S n) with (S (S i + n)) by lia.
    apply sortStep_leads; [lia|done].
  - intros p Hp Hlead. rewrite <-Hlen.
    apply sortStep_leads_before; [done|lia|]. rewrite Hlen. auto.
Qed.

Lemma sortInner_spec i r :
  let r' := sortInner less r i in
  length r' = length r ∧ r' ≡ₚ r ∧ leads less r' i (length r)
  ∧ ∀ p, p < i → leads less r p (length r) → leads less r' p (length r).
Proof.
  unfold sortInner.
  destruct (sortInner_steps i r (length r - S i)) as (Hlen & Hperm & Hi & Hbefore).
  split_and!; try done.
  destruct (decide (i < length r)).
  - replace (S i + (length r - S i)) with (length r) in Hi by lia. done.
  - intros q a b ? Ha. apply lookup_lt_Some in Ha. lia.
Qed.

Lemma exchangeSort_steps r n :
  let r' := foldl (sortInner less) r (seq 0 n) in
  length r' = length r ∧ r' ≡ₚ r ∧ ∀ p, p < n → leads less r' p (length r).
Proof.
  cbv zeta. induction n as [|n IH].
  { simpl. split_and!; [done..|]. lia. }
  rewrite seq_S, foldl_app. cbn [foldl]. rewrite Nat.add_0_l.
  destruct IH as (Hlen & Hperm & Hsorted).
  set (r' := foldl (sortInner less) r (seq 0 n)) in *.
  destruct (sortInner_spec n r') as (Hlen' & Hperm' & Hn & Hbefore).
  split_and!.
  - congruence.
  - by rewrite Hperm'.
  - intros p Hp. rewrite <-Hlen. destruct (decide (p = n)) as [->|]; [done|].
    apply Hbefore; [lia|]. rewrite Hlen. apply Hsorted. lia.
Qed.

Lemma leads_StronglySorted r :
  (∀ p, leads less r p (length r)) → StronglySorted (λ a b, less a b = false) r.
Proof.
  induction r as [|x r IH]; intros Hlead; constructor.
  - apply IH. intros p q a b Hq Ha Hb.
    apply (Hlead (S p) (S q)); simpl; auto with lia.
  - apply Forall_forall. intros b [q Hq]%list_elem_of_lookup.
    apply (Hlead 0 (S q)); simpl; [|done..].
    apply lookup_lt_Some in Hq. lia.
Qed.

Lemma exchangeSort_Permutation r : exchangeSort less r ≡ₚ r.
Proof. apply (exchangeSort_steps r (length r)). Qed.

Lemma exchangeSort_sorted r :
  StronglySorted (λ a b, less a b = false) (exchangeSort less r).
Proof.
  destruct (exchangeSort_steps r (length r)) as (Hlen & _ & Hsorted).
  apply leads_StronglySorted. intros p. fold (exchangeSort less r) in *.
  rewrite Hlen. destruct (decide (p < length r)); [auto|].
  intros q a b ? Ha. apply lookup_lt_Some in Ha. lia.
Qed.
End SortProperties.

(** ** The loops of [getRecommendations] as filters *)

Lemma eventSlotsOf_filter eventID (range : list (string * TimeSlot.t)) :
  eventSlotsOf eventID range
  = filter (λ slot, TimeSlot.EventID slot = eventID) (range.*2).
Proof.
  unfold eventSlotsOf.
  enough (∀ acc, foldl (λ eventSlots kv,
             if bool_decide (TimeSlot.EventID kv.2 = eventID)
             then eventSlots ++ [kv.2] else eventSlots) acc range
           = acc ++ filter (λ slot, TimeSlot.EventID slot = eventID) (range.*2))
    as H by apply (H []).
  induction range as [|kv range IH]; intros acc; simpl.
  { by rewrite app_nil_r. }
  rewrite IH, filter_cons. case_bool_decide; case_decide; try done.
  by rewrite <-app_assoc.
Qed.

Lemma elem_of_uniqueUsersOf eventID (range : list (string * UserAvailability.t)) u :
  u ∈ uniqueUsersOf eventID range
  ↔ ∃ kv, kv ∈ range ∧ UserAvailability.EventID kv.2 = eventID
          ∧ UserAvailability.UserID kv.2 = u.
Proof.
  unfold uniqueUsersOf.
  enough (∀ acc : gset string,
           u ∈ foldl (λ uniqueUsers kv,
                 if bool_decide (UserAvailability.EventID kv.2 = eventID)
                 then {[UserAvailability.UserID kv.2]} ∪ uniqueUsers else uniqueUsers)
               acc range
           ↔ u ∈ acc ∨ ∃ kv, kv ∈ range ∧ UserAvailability.EventID kv.2 = eventID
                             ∧ UserAvailability.UserID kv.2 = u) as H.
  { rewrite H. set_solver. }
  induction range as [|kv range IH]; intros acc; simpl.
  { set_solver. }
  rewrite IH. case_bool_decide; set_solver.
Qed.

Lemma uniqueUsersOf_Permutation eventID (l1 l2 : list (string * UserAvailability.t)) :
  l1 ≡ₚ l2 → uniqueUsersOf eventID l1 = uniqueUsersOf eventID l2.
Proof.
  intros Hperm. apply set_eq. intros u. rewrite !elem_of_uniqueUsersOf.
  by setoid_rewrite Hperm.
Qed.

Lemma splitUsers_filter (available : string → bool) (range : list string) :
  splitUsers available range
  = (filter (λ u, available u = true) range, filter (λ u, available u = false) range).
Proof.
  unfold splitUsers.
  enough (∀ acc : list string * list string,
           foldl (λ acc userID,
                    if available userID then (acc.1 ++ [userID], acc.2)
                    else (acc.1, acc.2 ++ [userID])) acc range
           = (acc.1 ++ filter (λ u, available u = true) range,
              acc.2 ++ filter (λ u, available u = false) range)) as H by apply (H ([], [])).
  induction range as [|u range IH]; intros [av un]; simpl.
  { by rewrite !app_nil_r. }
  rewrite IH, !filter_cons.
  destruct (available u) eqn:Hu; simpl; by rewrite <-app_assoc.
Qed.

Lemma marksAvailable_true eventID userID slotID avail :
  marksAvailable eventID userID slotID avail = true
  ↔ UserAvailability.EventID avail = eventID
    ∧ UserAvailability.UserID avail = userID
    ∧ UserAvailability.TimeSlotID avail = slotID
    ∧ UserAvailability.Status avail = "available".
Proof.
  unfold marksAvailable. rewrite !andb_true_iff, !bool_decide_eq_true. tauto.
Qed.

Lemma isAvailable_true eventID userID slotID (range : list (string * UserAvailability.t)) :
  isAvailable eventID userID slotID range = true
  ↔ ∃ kv, kv ∈ range ∧ marksAvailable eventID userID slotID kv.2 = true.
Proof.
  unfold isAvailable. rewrite existsb_exists.
  by setoid_rewrite list_elem_of_In.
Qed.

(** Over a visit of the stored records, [isAvailable] finds whether some
    stored record marks the user available for the slot. *)
Lemma isAvailable_ranges st eventID userID slotID range :
  ranges (userAvailability st) range →
  isAvailable eventID userID slotID range = true
  ↔ ∃ id avail, userAvailability st !! id = Some avail
                ∧ marksAvailable eventID userID slotID avail = true.
Proof.
  intros Hr. rewrite isAvailable_true. split.
  - intros ([id avail] & Hin & Hm). exists id, avail. split; [|done].
    rewrite Hr in Hin. by apply elem_of_map_to_list in Hin.
  - intros (id & avail & Hin & Hm). exists (id, avail). split; [|done].
    rewrite Hr. by apply elem_of_map_to_list.
Qed.

Lemma uniqueUsersOf_ranges st eventID range u :
  ranges (userAvailability st) range →
  u ∈ uniqueUsersOf eventID range
  ↔ ∃ id avail, userAvailability st !! id = Some avail
                ∧ UserAvailability.EventID avail = eventID
                ∧ UserAvailability.UserID avail = u.
Proof.
  intros Hr. rewrite elem_of_uniqueUsersOf. split.
  - intros ([id avail] & Hin & Hm). exists id, avail. split; [|done].
    rewrite Hr in Hin. by apply elem_of_map_to_list in Hin.
  - intros (id & avail & Hin & Hm). exists (id, avail). split; [|done].
    rewrite Hr. by apply elem_of_map_to_list.
Qed.

Lemma elem_of_eventSlotsOf st eventID range slot :
  ranges (timeSlots st) range →
  slot ∈ eventSlotsOf eventID range
  ↔ TimeSlot.EventID slot = eventID ∧ ∃ id, timeSlots st !! id = Some slot.
Proof.
  intros Hr. rewrite eventSlotsOf_filter, list_elem_of_filter, list_elem_of_fmap.
  split.
  - intros (? & [id s] & -> & Hin). split; [done|]. exists id.
    rewrite Hr in Hin. by apply elem_of_map_to_list in Hin.
  - intros (? & id & Hin). split; [done|]. exists (id, slot). split; [done|].
    rewrite Hr. by apply elem_of_map_to_list.
Qed.

(** ** What the slot loop appends *)

Lemma elem_of_scoreSlots o event eventID uniqueUsers k eventSlots r :
  r ∈ scoreSlots o event eventID uniqueUsers k eventSlots
  ↔ ∃ i slot, eventSlots !! i = Some slot ∧ tooShort event slot = false
              ∧ r = scoreSlot o eventID uniqueUsers (k + i) slot.
Proof.
  revert k. induction eventSlots as [|slot rest IH]; intros k; simpl.
  { split; [by intros ?%elem_of_nil | by intros (? & ? & ? & _)]. }
  assert (r ∈ scoreSlots o event eventID uniqueUsers (S k) rest
          ↔ ∃ i s, (slot :: rest) !! S i = Some s ∧ tooShort event s = false
                   ∧ r = scoreSlot o eventID uniqueUsers (k + S i) s) as Hrest.
  { rewrite IH. by setoid_rewrite Nat.add_succ_comm. }
  destruct (tooShort event slot) eqn:Hshort.
  - rewrite Hrest. split.
    + intros (i & s & ?). by exists (S i), s.
    + intros ([|i] & s & Hs & Hok & ?); simplify_eq/=; [congruence|]. by exists i, s.
  - rewrite elem_of_cons, Hrest. split.
    + intros [->|(i & s & ?)]; [|by exists (S i), s].
      exists 0, slot. by rewrite Nat.add_0_r.
    + intros ([|i] & s & Hs & Hok & ->); simplify_eq/=.
      * left. by rewrite Nat.add_0_r.
      * right. by exists i, s.
Qed.

(** ** The shape of a successful answer *)

Lemma getRecommendations_NotFound o eventID st :
  events st !! eventID = None →
  getRecommendations o eventID st = StatusNotFound "Event not found".
Proof. intros H. unfold getRecommendations. by rewrite H. Qed.

Lemma getRecommendations_OK o eventID st event :
  events st !! eventID = Some event →
  ∃ recs, getRecommendations o eventID st = StatusOK recs
    ∧ (recs = []
       ∨ size (uniqueUsersOf eventID (availRange o)) ≠ 0
         ∧ recs = exchangeSort lessAvailable
                    (scoreSlots o event eventID (uniqueUsersOf eventID (availRange o)) 0
                       (eventSlotsOf eventID (slotRange o)))).
Proof.
  intros H. unfold getRecommendations. rewrite H.
  destruct (length _ =? 0)%nat; [by eauto|].
  destruct (size _ =? 0)%nat eqn:Hsize; [by eauto|].
  apply Nat.eqb_neq in Hsize. eauto.
Qed.

Lemma lessAvailable_asym a b : lessAvailable a b = true → lessAvailable b a = false.
Proof. apply ltb_asym. Qed.

Lemma lessAvailable_trans a b c :
  lessAvailable a b = true → lessAvailable b c = true → lessAvailable a c = true.
Proof. apply ltb_trans. Qed.

(** Every recommendation of a successful answer is the score of a slot of
    the event that is long enough, taken over a non-empty set of users. *)
Lemma getRecommendations_elem o eventID st recs r :
  getRecommendations o eventID st = StatusOK recs → r ∈ recs →
  ∃ event k slot,
    events st !! eventID = Some event
    ∧ slot ∈ eventSlotsOf eventID (slotRange o)
    ∧ tooShort event slot = false
    ∧ size (uniqueUsersOf eventID (availRange o)) ≠ 0
    ∧ r = scoreSlot o eventID (uniqueUsersOf eventID (availRange o)) k slot.
Proof.
  intros Hget Hr. destruct (events st !! eventID) as [event|] eqn:Hev.
  - destruct (getRecommendations_OK o eventID st event Hev) as (recs' & Hget' & Hrecs).
    rewrite Hget in Hget'. simplify_eq.
    destruct Hrecs as [->|[Hsize ->]]; [by apply elem_of_nil in Hr|].
    rewrite (exchangeSort_Permutation lessAvailable
               lessAvailable_asym lessAvailable_trans) in Hr.
    apply elem_of_scoreSlots in Hr as (i & slot & Hi & Hok & ->).
    exists event, (0 + i), slot. split_and!; try done.
    apply list_elem_of_lookup. eauto.
  - by rewrite getRecommendations_NotFound in Hget.
Qed.

(** ** The two lists of a recommendation *)

Ltac ranges_by_computation :=
  split; [ | | intros ? | intros ? ?]; unfold ranges; vm_compute;
  apply (bool_decide_unpack _); vm_compute; exact I.

(** Every store has an order in which its maps can be visited. *)
Lemma canonicalOrder_ranges st eventID : rangesOver st eventID (canonicalOrder st eventID).
Proof. split; intros; unfold ranges; reflexivity. Qed.

Lemma knownUser_uniqueUsersOf st eventID o u :
  rangesOver st eventID o →
  u ∈ uniqueUsersOf eventID (availRange o) ↔ knownUser st eventID u.
Proof.
  intros Hr. rewrite (uniqueUsersOf_ranges st) by apply Hr.
  unfold knownUser, recordFor. split.
  - intros (id & avail & ? & ? & ?).
    exists (UserAvailability.TimeSlotID avail), avail. eauto 10.
  - intros (slotID & avail & (id & ?) & ? & ? & ?). eauto 10.
Qed.

Lemma elem_of_userRange st eventID o k u :
  rangesOver st eventID o → u ∈ userRange o k ↔ knownUser st eventID u.
Proof.
  intros Hr. rewrite (userRange_ranges _ _ _ Hr k), elem_of_elements.
  by apply knownUser_uniqueUsersOf.
Qed.

Lemma NoDup_userRange st eventID o k :
  rangesOver st eventID o → NoDup (userRange o k).
Proof.
  intros Hr. rewrite (userRange_ranges _ _ _ Hr k). apply NoDup_elements.
Qed.

(** The condition of the innermost loop, met by a stored record. *)
Lemma isAvailable_recordFor st eventID o k u slotID :
  rangesOver st eventID o →
  isAvailable eventID u slotID (scanRange o k u) = true
  ↔ ∃ avail, recordFor st eventID u slotID avail
             ∧ UserAvailability.Status avail = "available".
Proof.
  intros Hr. rewrite (isAvailable_ranges st) by apply Hr.
  setoid_rewrite marksAvailable_true. unfold recordFor. split.
  - intros (id & avail & ? & ? & ? & ? & ?). exists avail. eauto 10.
  - intros (avail & ((id & ?) & ? & ? & ?) & ?). exists id, avail. eauto 10.
Qed.

Lemma elem_of_AvailableUsers st eventID o uniqueUsers k slot u :
  rangesOver st eventID o →
  u ∈ Recommendation.AvailableUsers (scoreSlot o eventID uniqueUsers k slot)
  ↔ ∃ avail, recordFor st eventID u (TimeSlot.ID slot) avail
             ∧ UserAvailability.Status avail = "available".
Proof.
  intros Hr. unfold scoreSlot. simpl. rewrite splitUsers_filter. simpl.
  rewrite list_elem_of_filter, (isAvailable_recordFor st) by done.
  rewrite (elem_of_userRange st eventID) by done. split; [tauto|].
  intros (avail & Hrec & ?). split; [by eauto|].
  by exists (TimeSlot.ID slot), avail.
Qed.

Lemma elem_of_UnavailableUsers st eventID o uniqueUsers k slot u :
  rangesOver st eventID o →
  u ∈ Recommendation.UnavailableUsers (scoreSlot o eventID uniqueUsers k slot)
  ↔ knownUser st eventID u
    ∧ ¬ ∃ avail, recordFor st eventID u (TimeSlot.ID slot) avail
                 ∧ UserAvailability.Status avail = "available".
Proof.
  intros Hr. unfold scoreSlot. simpl. rewrite splitUsers_filter. simpl.
  rewrite list_elem_of_filter, (elem_of_userRange st eventID) by done.
  rewrite <-(isAvailable_recordFor st eventID o k) by done.
  rewrite not_true_iff_false. tauto.
Qed.

Lemma length_scoreSlot st eventID o uniqueUsers k slot :
  rangesOver st eventID o →
  length (Recommendation.AvailableUsers (scoreSlot o eventID uniqueUsers k slot))
  + length (Recommendation.UnavailableUsers (scoreSlot o eventID uniqueUsers k slot))
  = size (uniqueUsersOf eventID (availRange o)).
Proof.
  intros Hr. unfold scoreSlot. simpl. rewrite splitUsers_filter. simpl.
  unfold size, set_size. simpl. rewrite <-(userRange_ranges _ _ _ Hr k).
  generalize (userRange o k).
  intros l. induction l as [|u l IH]; [done|].
  rewrite !filter_cons.
  destruct (isAvailable _ _ _ _); simpl; lia.
Qed.

(** * The recommendation engine *)

(** ** Ranking *)

Lemma exchangeSort_lessAvailable_sorted recs :
  sortedByPercentage (exchangeSort lessAvailable recs).
Proof.
  destruct (exchangeSort_steps lessAvailable lessAvailable_asym lessAvailable_trans
              recs (length recs)) as (Hlen & _ & Hsorted).
  fold (exchangeSort lessAvailable recs) in *.
  intros i j a b Hij Ha Hb.
  apply (Hsorted i) with (q := j); [|split; [done|]|done..].
  - apply lookup_lt_Some in Ha, Hb. lia.
  - apply lookup_lt_Some in Hb. lia.
Qed.

(** C1, as amended.  Every successful answer of [getRecommendations] is in
    descending order of availability percentage: no recommendation is
    followed, however far behind, by one whose percentage is strictly
    higher.  This holds for every store and every order in which the maps
    are visited; nothing is said about recommendations of equal
    percentage. *)
Theorem recommendations_sorted_by_percentage o eventID st recs :
  getRecommendations o eventID st = StatusOK recs → sortedByPercentage recs.
Proof.
  intros Hget. destruct (events st !! eventID) as [event|] eqn:Hev.
  - destruct (getRecommendations_OK o eventID st event Hev) as (recs' & Hget' & Hrecs).
    rewrite Hget in Hget'. simplify_eq.
    destruct Hrecs as [->|[_ ->]]; [by intros i j a b _ ?|].
    apply exchangeSort_lessAvailable_sorted.
  - by rewrite getRecommendations_NotFound in Hget.
Qed.

Lemma recommendations_sorted_by_percentage_witness :
  getRecommendations surveyOrder "e1" (surveyStore 30) = StatusOK surveyAnswer30
  ∧ sortedByPercentage surveyAnswer30.
Proof.
  split; [vm_compute; reflexivity|].
  apply (recommendations_sorted_by_percentage surveyOrder "e1" (surveyStore 30)).
  vm_compute; reflexivity.
Defined.

(** C1, counterexample.  Both slots of [tieStore] score 100%; the map of
    slots is visited in the order [s1], [s2], and the answer keeps that
    order although [s1] starts two hours after [s2]. *)
Lemma ties_not_ordered_by_start_time :
  rangesOver tieStore "e1" tieOrder
  ∧ getRecommendations tieOrder "e1" tieStore = StatusOK tieAnswer
  ∧ ¬ (sortedByPercentage tieAnswer ∧ tiesByStartTime tieAnswer).
Proof.
  split; [ranges_by_computation|]. split; [vm_compute; reflexivity|].
  intros [_ Hties].
  specialize (Hties 0 1 _ _ (Nat.lt_0_succ 0) eq_refl eq_refl eq_refl).
  vm_compute in Hties. discriminate.
Qed.

(** With fewer than 2^53 known users every percentage is a number, and
    the answer is descending in the order [≤] of float64 as well. *)
Lemma recommendations_descending o eventID st recs :
  rangesOver st eventID o →
  getRecommendations o eventID st = StatusOK recs →
  (∀ r, r ∈ recs →
     (Z.of_nat (length (Recommendation.AvailableUsers r)
                + length (Recommendation.UnavailableUsers r)) < 2 ^ 53)%Z) →
  ∀ i j a b, i < j → recs !! i = Some a → recs !! j = Some b →
    F64.leb (Recommendation.AvailabilityPercentage b)
            (Recommendation.AvailabilityPercentage a) = true.
Proof.
  intros Hr Hget Hbound.
  assert (∀ r, r ∈ recs → F64.is_nan (Recommendation.AvailabilityPercentage r) = false)
    as Hnumber.
  { intros r Hin. specialize (Hbound r Hin).
    destruct (getRecommendations_elem _ _ _ _ _ Hget Hin)
      as (event & k & slot & _ & _ & _ & Hsize & ->).
    rewrite (length_scoreSlot st) in Hbound by done.
    pose proof (length_scoreSlot st eventID o
                  (uniqueUsersOf eventID (availRange o)) k slot Hr) as Hsum.
    set (U := uniqueUsersOf eventID (availRange o)) in *.
    change (F64.is_nan
              (percentage (length (Recommendation.AvailableUsers
                                     (scoreSlot o eventID U k slot))) (size U)) = false).
    apply percentage_not_nan; [lia|done..]. }
  assert (sortedByPercentage recs) as Hsorted.
  { destruct (events st !! eventID) as [event|] eqn:Hev.
    - destruct (getRecommendations_OK o eventID st event Hev) as (recs' & Hget' & Hrecs).
      rewrite Hget in Hget'. simplify_eq.
      destruct Hrecs as [->|[_ ->]]; [by intros i j a b _ ?|].
      apply exchangeSort_lessAvailable_sorted.
    - by rewrite getRecommendations_NotFound in Hget. }
  intros i j a b Hij Ha Hb. apply not_ltb_leb.
  - apply Hnumber. apply list_elem_of_lookup. eauto.
  - apply Hnumber. apply list_elem_of_lookup. eauto.
  - by apply (Hsorted i j).
Qed.

(** ** The partition of the users *)

(** C2.  In every recommendation of an answer, the users of the two lists
    together are exactly the users with some stored record for the event,
    no user is in both lists or twice in one, a user is in
    [AvailableUsers] exactly if some stored record of the event for that
    user and that slot has status [available], and in [UnavailableUsers]
    exactly if the user is known and no stored record does. *)
Theorem users_partitioned o eventID st recs r :
  rangesOver st eventID o →
  getRecommendations o eventID st = StatusOK recs →
  r ∈ recs →
  (∀ u, u ∈ Recommendation.AvailableUsers r ∨ u ∈ Recommendation.UnavailableUsers r
        ↔ knownUser st eventID u)
  ∧ (∀ u, u ∈ Recommendation.AvailableUsers r → u ∉ Recommendation.UnavailableUsers r)
  ∧ NoDup (Recommendation.AvailableUsers r)
  ∧ NoDup (Recommendation.UnavailableUsers r)
  ∧ (∀ u, u ∈ Recommendation.AvailableUsers r
          ↔ ∃ avail,
              recordFor st eventID u (TimeSlot.ID (Recommendation.TimeSlot r)) avail
              ∧ UserAvailability.Status avail = "available")
  ∧ (∀ u, u ∈ Recommendation.UnavailableUsers r
          ↔ knownUser st eventID u
            ∧ ¬ ∃ avail,
                  recordFor st eventID u (TimeSlot.ID (Recommendation.TimeSlot r)) avail
                  ∧ UserAvailability.Status avail = "available").
Proof.
  intros Hr Hget Hin.
  destruct (getRecommendations_elem _ _ _ _ _ Hget Hin)
    as (event & k & slot & _ & _ & _ & _ & ->).
  set (U := uniqueUsersOf eventID (availRange o)).
  pose proof (elem_of_AvailableUsers st eventID o U k slot) as Hav.
  pose proof (elem_of_UnavailableUsers st eventID o U k slot) as Hun.
  split_and!.
  - intros u. rewrite Hav, Hun by done. split.
    + intros [(avail & ? & _)|[? _]]; [|done]. by exists (TimeSlot.ID slot), avail.
    + intros Hknown.
      destruct (isAvailable eventID u (TimeSlot.ID slot) (scanRange o k u)) eqn:Hscan.
      * left. by apply (isAvailable_recordFor st eventID o k).
      * right. split; [done|].
        rewrite <-(isAvailable_recordFor st eventID o k) by done. congruence.
  - intros u. rewrite Hav, Hun by done. tauto.
  - unfold scoreSlot. simpl. rewrite splitUsers_filter. simpl.
    apply NoDup_filter. by eapply NoDup_userRange.
  - unfold scoreSlot. simpl. rewrite splitUsers_filter. simpl.
    apply NoDup_filter. by eapply NoDup_userRange.
  - intros u. by apply Hav.
  - intros u. by apply Hun.
Qed.

Lemma users_partitioned_witness :
  let r := Recommendation.mk longSlot ["u1"; "u2"] ["u3"] (percentage 2 3) in
  rangesOver (surveyStore 60) "e1" surveyOrder
  ∧ getRecommendations surveyOrder "e1" (surveyStore 60) = StatusOK [r]
  ∧ ∀ u, u ∈ Recommendation.AvailableUsers r ∨ u ∈ Recommendation.UnavailableUsers r
         ↔ knownUser (surveyStore 60) "e1" u.
Proof.
  intros r.
  assert (rangesOver (surveyStore 60) "e1" surveyOrder) as Hr
    by ranges_by_computation.
  assert (getRecommendations surveyOrder "e1" (surveyStore 60) = StatusOK [r]) as Hget
    by (vm_compute; reflexivity).
  split; [exact Hr|]. split; [exact Hget|].
  apply (users_partitioned surveyOrder "e1" (surveyStore 60) [r] r Hr Hget).
  apply list_elem_of_here.
Defined.

(** ** Several records for one user and one slot *)

(** C3, as amended.  When several records are stored for the same user,
    event and slot, the user is listed as available exactly if at least one
    of them has status [available], whichever was updated last.  So a
    latest record with status [available] makes the user available, and a
    record that is the only one for its user and slot decides alone; a
    latest record with another status decides nothing. *)
Theorem available_record_wins o eventID st recs r u :
  rangesOver st eventID o →
  getRecommendations o eventID st = StatusOK recs →
  r ∈ recs →
  let slotID := TimeSlot.ID (Recommendation.TimeSlot r) in
  (∀ avail, recordFor st eventID u slotID avail →
            UserAvailability.Status avail = "available" →
            u ∈ Recommendation.AvailableUsers r)
  ∧ ((∀ avail, recordFor st eventID u slotID avail →
               UserAvailability.Status avail ≠ "available") →
     u ∉ Recommendation.AvailableUsers r)
  ∧ (∀ avail, latestRecordFor st eventID u slotID avail →
              UserAvailability.Status avail = "available" →
              u ∈ Recommendation.AvailableUsers r)
  ∧ (∀ avail, recordFor st eventID u slotID avail →
              (∀ other, recordFor st eventID u slotID other → other = avail) →
              (u ∈ Recommendation.AvailableUsers r
               ↔ UserAvailability.Status avail = "available")).
Proof.
  intros Hr Hget Hin slotID. subst slotID.
  destruct (getRecommendations_elem _ _ _ _ _ Hget Hin)
    as (event & k & slot & _ & _ & _ & _ & ->).
  set (U := uniqueUsersOf eventID (availRange o)).
  pose proof (elem_of_AvailableUsers st eventID o U k slot u Hr) as Hav.
  simpl. split_and!.
  - intros avail ? ?. apply Hav. eauto.
  - intros Hnone (avail & ? & ?)%Hav. by eapply Hnone.
  - intros avail [? _] ?. apply Hav. eauto.
  - intros avail Hrec Honly. rewrite Hav. split.
    + intros (other & ?%Honly & ?). by subst.
    + eauto.
Qed.

Lemma changedMindOrder_ranges : rangesOver changedMindStore "e1" changedMindOrder.
Proof. ranges_by_computation. Qed.

Lemma changedMind_records other :
  recordFor changedMindStore "e1" "u1" "s1" other →
  other = firstAnswer ∨ other = secondAnswer.
Proof.
  intros [[id Hid] _].
  apply elem_of_map_to_list in Hid.
  replace (map_to_list (userAvailability changedMindStore))
    with [("a1", firstAnswer); ("a2", secondAnswer)] in Hid
    by (vm_compute; reflexivity).
  apply elem_of_cons in Hid as [?|Hid]; [left; congruence|].
  apply elem_of_cons in Hid as [?|Hid]; [right; congruence|].
  by apply elem_of_nil in Hid.
Qed.

Lemma secondAnswer_latest :
  latestRecordFor changedMindStore "e1" "u1" "s1" secondAnswer.
Proof.
  split.
  - split; [|done]. exists "a2". vm_compute; reflexivity.
  - intros other [-> | ->]%changedMind_records ?; [reflexivity|done].
Qed.

Lemma available_record_wins_witness :
  let r := Recommendation.mk onlySlot ["u1"] [] (percentage 1 1) in
  rangesOver changedMindStore "e1" changedMindOrder
  ∧ getRecommendations changedMindOrder "e1" changedMindStore = StatusOK [r]
  ∧ recordFor changedMindStore "e1" "u1" "s1" firstAnswer
  ∧ "u1" ∈ Recommendation.AvailableUsers r.
Proof.
  intros r.
  assert (recordFor changedMindStore "e1" "u1" "s1" firstAnswer) as Hfirst.
  { split; [|split_and!; reflexivity]. exists "a1". vm_compute; reflexivity. }
  assert (rangesOver changedMindStore "e1" changedMindOrder) as Hr
    by ranges_by_computation.
  assert (getRecommendations changedMindOrder "e1" changedMindStore
          = StatusOK changedMindAnswer) as Hget by (vm_compute; reflexivity).
  split; [exact Hr|]. split; [exact Hget|]. split; [exact Hfirst|].
  pose proof (available_record_wins changedMindOrder "e1" changedMindStore
                changedMindAnswer r "u1" Hr Hget (list_elem_of_here _ _)) as (Hwins & _).
  apply (Hwins firstAnswer); [exact Hfirst|reflexivity].
Defined.

(** C3, counterexample.  In [changedMindStore] user [u1] has two records
    for slot [s1]: [available], updated at 10, and [unavailable], updated
    at 20.  The answer lists [u1] as available although the latest record
    says [unavailable]. *)
Lemma latest_record_not_followed :
  rangesOver changedMindStore "e1" changedMindOrder
  ∧ getRecommendations changedMindOrder "e1" changedMindStore = StatusOK changedMindAnswer
  ∧ ¬ resolvesFromLatest changedMindStore "e1" changedMindAnswer.
Proof.
  split; [apply changedMindOrder_ranges|]. split; [vm_compute; reflexivity|].
  intros Hlatest.
  specialize (Hlatest (Recommendation.mk onlySlot ["u1"] [] (percentage 1 1))
                "u1" secondAnswer (list_elem_of_here _ _) secondAnswer_latest).
  simpl in Hlatest. destruct Hlatest as [Hlatest _].
  specialize (Hlatest (list_elem_of_here _ _)). discriminate.
Qed.

(** ** Slots that are too short *)

Lemma scoreSlot_TimeSlot o eventID uniqueUsers k slot :
  Recommendation.TimeSlot (scoreSlot o eventID uniqueUsers k slot) = slot.
Proof. reflexivity. Qed.

(** The duration test on the values that the handler compares.  For an
    event that exists the answer is a success, and a slot is in
    it only if it is a stored slot of the event whose length in minutes is
    not below the required duration; both are the float64 values that the
    handler compares, [EndTime.Sub(StartTime).Minutes()] and
    [float64(RequiredDuration)].  A slot that is too short is in no
    recommendation, whatever records exist for it, and the answer is still
    a success.  Conversely a stored slot of the event that is long enough
    is recommended as soon as the event has a known user. *)
Theorem short_slots_left_out o eventID st event :
  rangesOver st eventID o →
  events st !! eventID = Some event →
  ∃ recs,
    getRecommendations o eventID st = StatusOK recs
    ∧ (∀ r, r ∈ recs →
         (∃ id, timeSlots st !! id = Some (Recommendation.TimeSlot r))
         ∧ TimeSlot.EventID (Recommendation.TimeSlot r) = eventID
         ∧ F64.ltb (slotDuration (Recommendation.TimeSlot r))
                   (F64.of_int (Event.RequiredDuration event)) = false)
    ∧ (∀ slot,
         F64.ltb (slotDuration slot) (F64.of_int (Event.RequiredDuration event)) = true →
         ∀ r, r ∈ recs → Recommendation.TimeSlot r ≠ slot)
    ∧ (∀ id slot u,
         timeSlots st !! id = Some slot →
         TimeSlot.EventID slot = eventID →
         F64.ltb (slotDuration slot) (F64.of_int (Event.RequiredDuration event)) = false →
         knownUser st eventID u →
         ∃ r, r ∈ recs ∧ Recommendation.TimeSlot r = slot).
Proof.
  intros Hr Hev.
  destruct (getRecommendations_OK o eventID st event Hev) as (recs & Hget & Hrecs).
  exists recs. split; [done|].
  assert (∀ r, r ∈ recs →
            (∃ id, timeSlots st !! id = Some (Recommendation.TimeSlot r))
            ∧ TimeSlot.EventID (Recommendation.TimeSlot r) = eventID
            ∧ F64.ltb (slotDuration (Recommendation.TimeSlot r))
                      (F64.of_int (Event.RequiredDuration event)) = false) as Hkept.
  { intros r Hin.
    destruct (getRecommendations_elem _ _ _ _ _ Hget Hin)
      as (event' & k & slot & Hev' & Hslot & Hlong & _ & ->).
    rewrite Hev in Hev'. simplify_eq. rewrite scoreSlot_TimeSlot.
    apply (elem_of_eventSlotsOf st) in Hslot as [? ?]; [|apply Hr]. done. }
  split_and!; [done| |].
  - intros slot Hshort r Hin <-. apply Hkept in Hin as (_ & _ & Hlong). congruence.
  - intros id slot u Hslot Hevent Hlong Hknown.
    assert (slot ∈ eventSlotsOf eventID (slotRange o)) as Hin.
    { apply (elem_of_eventSlotsOf st); [apply Hr|]. eauto. }
    apply (knownUser_uniqueUsersOf st eventID o u Hr) in Hknown.
    unfold getRecommendations in Hget. rewrite Hev in Hget.
    destruct (length _ =? 0)%nat eqn:Hlen.
    { apply Nat.eqb_eq in Hlen. apply length_zero_iff_nil in Hlen.
      rewrite Hlen in Hin. by apply elem_of_nil in Hin. }
    destruct (size _ =? 0)%nat eqn:Hsize.
    { apply Nat.eqb_eq, size_empty_iff in Hsize. set_solver. }
    injection Hget as <-. apply list_elem_of_lookup in Hin as [i Hi].
    exists (scoreSlot o eventID (uniqueUsersOf eventID (availRange o)) (0 + i) slot).
    split; [|done].
    rewrite (exchangeSort_Permutation lessAvailable
               lessAvailable_asym lessAvailable_trans).
    apply elem_of_scoreSlots. eauto.
Qed.

Lemma short_slots_left_out_witness :
  rangesOver (surveyStore 60) "e1" surveyOrder
  ∧ (∃ id, timeSlots (surveyStore 60) !! id = Some shortSlot)
  ∧ F64.ltb (slotDuration shortSlot) (F64.of_int 60) = true
  ∧ ∃ recs,
      getRecommendations surveyOrder "e1" (surveyStore 60) = StatusOK recs
      ∧ ∀ r, r ∈ recs → Recommendation.TimeSlot r ≠ shortSlot.
Proof.
  assert (rangesOver (surveyStore 60) "e1" surveyOrder) as Hr
    by ranges_by_computation.
  split; [exact Hr|].
  split; [exists "sB"; vm_compute; reflexivity|].
  split; [vm_compute; reflexivity|].
  destruct (short_slots_left_out surveyOrder "e1" (surveyStore 60)
              (Event.mk "e1" "Sync" "" "org" 60 "active" 1 1) Hr)
    as (recs & Hget & _ & Hshort & _); [vm_compute; reflexivity|].
  exists recs. split; [exact Hget|].
  apply Hshort. vm_compute; reflexivity.
Defined.

(** C4.  The handler means to skip the slots that are too short, but it
    compares minutes in float64.  The slot of [almostStore] is one
    nanosecond shorter than the 262145 minutes that its event requires;
    [Minutes] adds 262144 and 59999999999 / 6e10, which float64 rounds to
    262145, and that is not below [float64(262145)]: the slot is
    recommended. *)
Theorem short_slot_recommended :
  rangesOver almostStore "e1" almostOrder
  ∧ events almostStore !! "e1" = Some almostEvent
  ∧ timeSlots almostStore !! "s1" = Some almostSlot
  ∧ (TimeSlot.EndTime almostSlot - TimeSlot.StartTime almostSlot
     < Event.RequiredDuration almostEvent * Time.Minute)%Z
  ∧ slotDuration almostSlot = F64.of_int 262145
  ∧ getRecommendations almostOrder "e1" almostStore
    = StatusOK [Recommendation.mk almostSlot ["u1"] [] (percentage 1 1)].
Proof.
  split; [ranges_by_computation|].
  split; [vm_compute; reflexivity|].
  split; [vm_compute; reflexivity|].
  split; [vm_compute; reflexivity|].
  split; vm_compute; reflexivity.
Qed.

(** ** The percentage *)

(** C5.  The percentage of a recommendation is the number of its available
    users divided by the number of users in its two lists, times 100,
    computed in [float64] and not rounded to an integer. *)
Theorem percentage_of_partition o eventID st recs r :
  rangesOver st eventID o →
  getRecommendations o eventID st = StatusOK recs →
  r ∈ recs →
  Recommendation.AvailabilityPercentage r
  = F64.mul
      (F64.div
         (F64.of_int (Z.of_nat (length (Recommendation.AvailableUsers r))))
         (F64.of_int (Z.of_nat (length (Recommendation.AvailableUsers r)
                                + length (Recommendation.UnavailableUsers r)))))
      (F64.of_int 100).
Proof.
  intros Hr Hget Hin.
  destruct (getRecommendations_elem _ _ _ _ _ Hget Hin)
    as (event & k & slot & _ & _ & _ & _ & ->).
  rewrite (length_scoreSlot st) by done. reflexivity.
Qed.

(** Two available users out of three: 4691249611844266 / 2^46, which is
    66.66666666666666 and lies strictly between 66 and 67. *)
Lemma percentage_two_of_three :
  percentage 2 3 = S754_finite false 4691249611844266 (-46)
  ∧ F64.ltb (F64.of_int 66) (percentage 2 3) = true
  ∧ F64.ltb (percentage 2 3) (F64.of_int 67) = true.
Proof. split_and!; vm_compute; reflexivity. Qed.

Lemma percentage_of_partition_witness :
  let r := Recommendation.mk longSlot ["u1"; "u2"] ["u3"]
             (S754_finite false 4691249611844266 (-46)) in
  rangesOver (surveyStore 60) "e1" surveyOrder
  ∧ getRecommendations surveyOrder "e1" (surveyStore 60) = StatusOK [r]
  ∧ Recommendation.AvailabilityPercentage r
    = F64.mul (F64.div (F64.of_int 2) (F64.of_int 3)) (F64.of_int 100).
Proof.
  intros r.
  assert (rangesOver (surveyStore 60) "e1" surveyOrder) as Hr
    by ranges_by_computation.
  assert (getRecommendations surveyOrder "e1" (surveyStore 60) = StatusOK [r]) as Hget
    by (vm_compute; reflexivity).
  split; [exact Hr|]. split; [exact Hget|].
  apply (percentage_of_partition surveyOrder "e1" (surveyStore 60) [r] r Hr Hget).
  apply list_elem_of_here.
Defined.

(** ** Missing events and empty answers *)

Lemma eventSlotsOf_nil st eventID range :
  ranges (timeSlots st) range →
  (∀ id slot, timeSlots st !! id = Some slot → TimeSlot.EventID slot ≠ eventID) →
  eventSlotsOf eventID range = [].
Proof.
  intros Hr Hnone. apply elem_of_nil_inv. intros slot Hin.
  apply (elem_of_eventSlotsOf st) in Hin as [? [id ?]]; [|done].
  by eapply Hnone.
Qed.

(** C6.  [getRecommendations] answers 404 exactly if the event is not
    stored.  For a stored event without slots, and for a stored event
    without known users, the answer is a success with no recommendation.
    Whenever a percentage is computed its divisor, the number of users in
    the two lists, is not zero. *)
Theorem not_found_or_success o eventID st :
  rangesOver st eventID o →
  ((∃ error, getRecommendations o eventID st = StatusNotFound error)
   ↔ events st !! eventID = None)
  ∧ (is_Some (events st !! eventID) →
     ∃ recs, getRecommendations o eventID st = StatusOK recs)
  ∧ (is_Some (events st !! eventID) →
     (∀ id slot, timeSlots st !! id = Some slot → TimeSlot.EventID slot ≠ eventID) →
     getRecommendations o eventID st = StatusOK [])
  ∧ (is_Some (events st !! eventID) →
     (∀ u, ¬ knownUser st eventID u) →
     getRecommendations o eventID st = StatusOK [])
  ∧ (∀ recs r, getRecommendations o eventID st = StatusOK recs → r ∈ recs →
       let known := length (Recommendation.AvailableUsers r)
                    + length (Recommendation.UnavailableUsers r) in
       known ≠ 0
       ∧ ((Z.of_nat known < 2 ^ 53)%Z →
          ∃ m e, F64.of_int (Z.of_nat known) = S754_finite false m e)).
Proof.
  intros Hr. split_and!.
  - split.
    + intros [error Hget]. destruct (events st !! eventID) as [event|] eqn:Hev; [|done].
      destruct (getRecommendations_OK o eventID st event Hev) as (recs & Hget' & _).
      congruence.
    + intros Hev. rewrite getRecommendations_NotFound by done. eauto.
  - intros [event Hev].
    destruct (getRecommendations_OK o eventID st event Hev) as (recs & Hget & _). eauto.
  - intros [event Hev] Hnone. unfold getRecommendations. rewrite Hev.
    by rewrite (eventSlotsOf_nil st) by (done || apply Hr).
  - intros [event Hev] Hnone. unfold getRecommendations. rewrite Hev.
    destruct (length _ =? 0)%nat; [done|].
    assert (uniqueUsersOf eventID (availRange o) = ∅) as ->.
    { apply set_eq. intros u. rewrite (knownUser_uniqueUsersOf st) by done.
      split; [by intros ?%Hnone | by intros ?%not_elem_of_empty]. }
    by rewrite size_empty.
  - intros recs r Hget Hin.
    destruct (getRecommendations_elem _ _ _ _ _ Hget Hin)
      as (event & k & slot & _ & _ & _ & Hsize & ->).
    cbv zeta. rewrite (length_scoreSlot st) by done. split; [done|].
    intros Hbound. by apply of_int_finite; [lia|].
Qed.

Lemma not_found_or_success_witness :
  rangesOver quietStore "e1" quietOrder
  ∧ is_Some (events quietStore !! "e1")
  ∧ (∀ u, ¬ knownUser quietStore "e1" u)
  ∧ getRecommendations quietOrder "e1" quietStore = StatusOK [].
Proof.
  assert (rangesOver quietStore "e1" quietOrder) as Hr by ranges_by_computation.
  assert (is_Some (events quietStore !! "e1")) as Hev by (vm_compute; eauto).
  assert (∀ u, ¬ knownUser quietStore "e1" u) as Hnone.
  { intros u (slotID & avail & [id Hid] & _). vm_compute in Hid. discriminate. }
  split; [exact Hr|]. split; [exact Hev|]. split; [exact Hnone|].
  destruct (not_found_or_success quietOrder "e1" quietStore Hr)
    as (_ & _ & _ & Hquiet & _).
  exact (Hquiet Hev Hnone).
Defined.

(** ** Two calls over the same store *)

Lemma summary_scoreSlot st eventID o1 o2 uniqueUsers k1 k2 slot :
  rangesOver st eventID o1 → rangesOver st eventID o2 →
  summary (scoreSlot o1 eventID uniqueUsers k1 slot)
  = summary (scoreSlot o2 eventID uniqueUsers k2 slot).
Proof.
  intros Hr1 Hr2.
  assert (Recommendation.AvailableUsers (scoreSlot o1 eventID uniqueUsers k1 slot)
          ≡ₚ Recommendation.AvailableUsers (scoreSlot o2 eventID uniqueUsers k2 slot))
    as Hav.
  { apply NoDup_Permutation.
    - unfold scoreSlot. simpl. rewrite splitUsers_filter. simpl.
      apply NoDup_filter. by eapply NoDup_userRange.
    - unfold scoreSlot. simpl. rewrite splitUsers_filter. simpl.
      apply NoDup_filter. by eapply NoDup_userRange.
    - intros u. by rewrite !(elem_of_AvailableUsers st eventID). }
  assert (Recommendation.UnavailableUsers (scoreSlot o1 eventID uniqueUsers k1 slot)
          ≡ₚ Recommendation.UnavailableUsers (scoreSlot o2 eventID uniqueUsers k2 slot))
    as Hun.
  { apply NoDup_Permutation.
    - unfold scoreSlot. simpl. rewrite splitUsers_filter. simpl.
      apply NoDup_filter. by eapply NoDup_userRange.
    - unfold scoreSlot. simpl. rewrite splitUsers_filter. simpl.
      apply NoDup_filter. by eapply NoDup_userRange.
    - intros u. by rewrite !(elem_of_UnavailableUsers st eventID). }
  unfold summary. f_equal; [f_equal; [f_equal|]|].
  - apply set_eq. intros u. by rewrite !elem_of_list_to_set, Hav.
  - apply set_eq. intros u. by rewrite !elem_of_list_to_set, Hun.
  - change (percentage
              (length (Recommendation.AvailableUsers
                         (scoreSlot o1 eventID uniqueUsers k1 slot))) (size uniqueUsers)
            = percentage
                (length (Recommendation.AvailableUsers
                           (scoreSlot o2 eventID uniqueUsers k2 slot))) (size uniqueUsers)).
    by rewrite Hav.
Qed.

Lemma summary_scoreSlots st eventID o1 o2 event uniqueUsers k eventSlots :
  rangesOver st eventID o1 → rangesOver st eventID o2 →
  summary <$> scoreSlots o1 event eventID uniqueUsers k eventSlots
  = omap (λ slot, if tooShort event slot then None
                  else Some (summary (scoreSlot o2 eventID uniqueUsers 0 slot)))
         eventSlots.
Proof.
  intros Hr1 Hr2. revert k.
  induction eventSlots as [|slot rest IH]; intros k; simpl; [done|].
  destruct (tooShort event slot); simpl; [done|].
  by rewrite IH, (summary_scoreSlot st eventID o1 o2 uniqueUsers k 0).
Qed.

Lemma eventSlotsOf_Permutation st eventID o1 o2 :
  rangesOver st eventID o1 → rangesOver st eventID o2 →
  eventSlotsOf eventID (slotRange o1) ≡ₚ eventSlotsOf eventID (slotRange o2).
Proof.
  intros Hr1 Hr2. rewrite !eventSlotsOf_filter.
  apply filter_Permutation, fmap_Permutation.
  by rewrite (slotRange_ranges _ _ _ Hr1), (slotRange_ranges _ _ _ Hr2).
Qed.

Lemma uniqueUsersOf_ranges_eq st eventID o1 o2 :
  rangesOver st eventID o1 → rangesOver st eventID o2 →
  uniqueUsersOf eventID (availRange o1) = uniqueUsersOf eventID (availRange o2).
Proof.
  intros Hr1 Hr2. apply uniqueUsersOf_Permutation.
  by rewrite (availRange_ranges _ _ _ Hr1), (availRange_ranges _ _ _ Hr2).
Qed.

(** C7, as amended.  Two calls over the same store answer with the same
    status, and two successful answers agree once order is forgotten: they
    hold the same slots, each with the same percentage, the same set of
    available users and the same set of unavailable users.  The order of
    the recommendations and the order of the users inside the lists depend
    on the order in which the maps are visited. *)
Theorem answers_agree_up_to_order o1 o2 eventID st :
  rangesOver st eventID o1 →
  rangesOver st eventID o2 →
  match getRecommendations o1 eventID st, getRecommendations o2 eventID st with
  | StatusOK recs1, StatusOK recs2 => summary <$> recs1 ≡ₚ summary <$> recs2
  | StatusNotFound error1, StatusNotFound error2 => error1 = error2
  | _, _ => False
  end.
Proof.
  intros Hr1 Hr2. unfold getRecommendations.
  destruct (events st !! eventID) as [event|]; [|done].
  pose proof (eventSlotsOf_Permutation st eventID o1 o2 Hr1 Hr2) as Hslots.
  rewrite <-(uniqueUsersOf_ranges_eq st eventID o1 o2 Hr1 Hr2).
  rewrite <-(Permutation_length Hslots).
  destruct (length _ =? 0)%nat; [done|].
  destruct (size _ =? 0)%nat; [done|].
  rewrite !(exchangeSort_Permutation lessAvailable
              lessAvailable_asym lessAvailable_trans).
  rewrite (summary_scoreSlots st eventID o1 o1) by done.
  rewrite (summary_scoreSlots st eventID o2 o1) by done.
  by rewrite Hslots.
Qed.

Lemma answers_agree_up_to_order_witness :
  rangesOver tieStore "e1" tieOrder
  ∧ rangesOver tieStore "e1" tieOrder'
  ∧ getRecommendations tieOrder "e1" tieStore = StatusOK tieAnswer
  ∧ getRecommendations tieOrder' "e1" tieStore = StatusOK tieAnswer'
  ∧ summary <$> tieAnswer ≡ₚ summary <$> tieAnswer'.
Proof.
  assert (rangesOver tieStore "e1" tieOrder) as Hr by ranges_by_computation.
  assert (rangesOver tieStore "e1" tieOrder') as Hr' by ranges_by_computation.
  assert (getRecommendations tieOrder "e1" tieStore = StatusOK tieAnswer) as Hget
    by (vm_compute; reflexivity).
  assert (getRecommendations tieOrder' "e1" tieStore = StatusOK tieAnswer') as Hget'
    by (vm_compute; reflexivity).
  split; [exact Hr|]. split; [exact Hr'|]. split; [exact Hget|]. split; [exact Hget'|].
  pose proof (answers_agree_up_to_order tieOrder tieOrder' "e1" tieStore Hr Hr') as H.
  rewrite Hget, Hget' in H. exact H.
Defined.

(** C7, counterexample.  Over [tieStore] the orders [tieOrder] and
    [tieOrder'] are both possible, and the two answers differ: the slots
    come in opposite order and so do the users inside the lists. *)
Lemma answers_differ_between_calls :
  rangesOver tieStore "e1" tieOrder
  ∧ rangesOver tieStore "e1" tieOrder'
  ∧ getRecommendations tieOrder "e1" tieStore
    ≠ getRecommendations tieOrder' "e1" tieStore.
Proof.
  split; [ranges_by_computation|]. split; [ranges_by_computation|].
  vm_compute. discriminate.
Qed.

(** * The handlers that write *)

(** ** updateEvent *)

Lemma updateEvent_lookup now eventID body st stored :
  events st !! eventID = Some stored →
  ∃ updated,
    events (updateEvent now eventID body st).2 !! eventID = Some updated
    ∧ Event.ID updated = Event.ID stored
    ∧ Event.Status updated = Event.Status stored
    ∧ Event.CreatedAt updated = Event.CreatedAt stored.
Proof.
  intros Hev. unfold updateEvent. rewrite Hev.
  destruct (ShouldBindJSON _ body) as [req|]; simpl.
  - rewrite lookup_insert_eq. eauto.
  - eauto.
Qed.

(** C8, as amended.  An update of a stored event keeps its identifier, its
    status and its creation time, whatever the request; a request that
    binds replaces the title, the description, the organizer and the
    required duration by its own values, sets the update time and touches
    nothing else in the store. *)
Theorem updateEvent_frame now eventID body st stored :
  events st !! eventID = Some stored →
  (∃ updated,
     events (updateEvent now eventID body st).2 !! eventID = Some updated
     ∧ Event.ID updated = Event.ID stored
     ∧ Event.Status updated = Event.Status stored
     ∧ Event.CreatedAt updated = Event.CreatedAt stored)
  ∧ (∀ req, body = Some req → CreateEventRequest.valid req = true →
       ∃ updated st',
         updateEvent now eventID body st = (StatusOK updated, st')
         ∧ events st' !! eventID = Some updated
         ∧ Event.Title updated = CreateEventRequest.Title req
         ∧ Event.Description updated = CreateEventRequest.Description req
         ∧ Event.OrganizerID updated = CreateEventRequest.OrganizerID req
         ∧ Event.RequiredDuration updated = CreateEventRequest.RequiredDuration req
         ∧ Event.UpdatedAt updated = now
         ∧ (∀ other, other ≠ eventID → events st' !! other = events st !! other)
         ∧ timeSlots st' = timeSlots st
         ∧ userAvailability st' = userAvailability st).
Proof.
  intros Hev. split; [by apply updateEvent_lookup|].
  intros req -> Hvalid. unfold updateEvent. rewrite Hev. simpl. rewrite Hvalid.
  eexists _, _. split; [done|]. simpl. rewrite lookup_insert_eq.
  split_and!; try done.
  intros other ?. by rewrite lookup_insert_ne.
Qed.

Lemma updateEvent_frame_witness :
  let st := replay [newEvent "e1" 1 60] in
  let req := CreateEventRequest.mk "Retro" "monthly" "lead" 45 in
  events st !! "e1" = Some (Event.mk "e1" "Sync" "" "org" 60 "active" 1 1)
  ∧ events (updateEvent 9 "e1" (Some req) st).2 !! "e1"
    = Some (Event.mk "e1" "Retro" "monthly" "lead" 45 "active" 1 9).
Proof.
  intros st req.
  assert (events st !! "e1" = Some (Event.mk "e1" "Sync" "" "org" 60 "active" 1 1))
    as Hev by (vm_compute; reflexivity).
  split; [exact Hev|].
  destruct (updateEvent_frame 9 "e1" (Some req) st _ Hev) as [_ Hreq].
  destruct (Hreq req eq_refl eq_refl) as (updated & st' & Hrun & _).
  vm_compute in Hrun. by simplify_eq.
Defined.

(** C8, counterexample.  No update changes the status of a stored event:
    the request of [updateEvent] has no status, and the handler copies the
    stored one. *)
Lemma status_not_mutable : ¬ fieldMutable Event.Status.
Proof.
  intros (now & eventID & body & st & stored & updated & Hev & Hup & Hdiff).
  destruct (updateEvent_lookup now eventID body st stored Hev)
    as (updated' & Hup' & _ & Hstatus & _).
  congruence.
Qed.

(** ** createUserAvailability *)





(** C10.  [createUserAvailability] stores a record as soon as the event of
    the path is stored, the request binds and some stored slot has the
    identifier of the request; the event of that slot is not looked at.
    The record carries the event of the path, so its user becomes a known
    user of that event. *)
Theorem createUserAvailability_any_slot uuid now eventID userID req st event slot :
  events st !! eventID = Some event →
  UserAvailabilityRequest.valid req = true →
  timeSlots st !! UserAvailabilityRequest.TimeSlotID req = Some slot →
  ∃ avail st',
    createUserAvailability uuid now eventID userID (Some req) st
    = (StatusCreated avail, st')
    ∧ userAvailability st' !! uuid = Some avail
    ∧ UserAvailability.EventID avail = eventID
    ∧ UserAvailability.UserID avail = userID
    ∧ UserAvailability.TimeSlotID avail = UserAvailabilityRequest.TimeSlotID req
    ∧ UserAvailability.Status avail = UserAvailabilityRequest.Status req
    ∧ knownUser st' eventID userID.
Proof.
  intros Hev Hvalid Hslot. unfold createUserAvailability. rewrite Hev. simpl.
  rewrite Hvalid, Hslot. eexists _, _. split; [done|]. simpl.
  rewrite lookup_insert_eq. split_and!; try done.
  exists (UserAvailabilityRequest.TimeSlotID req),
         (UserAvailability.mk uuid userID eventID
            (UserAvailabilityRequest.TimeSlotID req)
            (UserAvailabilityRequest.Status req) now now).
  split; [|done]. exists uuid. simpl. by rewrite lookup_insert_eq.
Qed.

Lemma createUserAvailability_any_slot_witness :
  let req := UserAvailabilityRequest.mk "s2" "available" in
  events foreignSlotStore !! "e1" = Some (Event.mk "e1" "Sync" "" "org" 60 "active" 1 1)
  ∧ UserAvailabilityRequest.valid req = true
  ∧ timeSlots foreignSlotStore !! "s2"
    = Some (TimeSlot.mk "s2" "e2" (minutes 0) (minutes 30) 4 4)
  ∧ ∃ avail st',
      createUserAvailability "a2" 6 "e1" "u9" (Some req) foreignSlotStore
      = (StatusCreated avail, st')
      ∧ knownUser st' "e1" "u9".
Proof.
  intros req.
  assert (events foreignSlotStore !! "e1"
          = Some (Event.mk "e1" "Sync" "" "org" 60 "active" 1 1)) as Hev
    by (vm_compute; reflexivity).
  assert (UserAvailabilityRequest.valid req = true) as Hvalid
    by (vm_compute; reflexivity).
  assert (timeSlots foreignSlotStore !! "s2"
          = Some (TimeSlot.mk "s2" "e2" (minutes 0) (minutes 30) 4 4)) as Hslot
    by (vm_compute; reflexivity).
  split; [exact Hev|]. split; [exact Hvalid|]. split; [exact Hslot|].
  destruct (createUserAvailability_any_slot "a2" 6 "e1" "u9" req foreignSlotStore
              _ _ Hev Hvalid Hslot) as (avail & st' & Hrun & _ & _ & _ & _ & _ & Hknown).
  exists avail, st'. split; [exact Hrun | exact Hknown].
Defined.

(** * The other handlers *)

(** ** Failures do not write *)

(** X1.  A request that is answered with an error code (400 or 404) leaves
    the three maps as they were, whichever handler served it and whichever
    check refused it: the lookup of the path, the binding of the body or
    the order of the two times. *)
Theorem failed_request_keeps_store request st :
  400 ≤ (serve request st).1 → (serve request st).2 = st.
Proof.
  destruct request; simpl;
    unfold createEvent, updateEvent, deleteEvent, createTimeSlot, updateTimeSlot,
      deleteTimeSlot, createUserAvailability, updateUserAvailability,
      deleteUserAvailability;
    repeat (case_match; simpl; try done); lia.
Qed.

Lemma failed_request_keeps_store_witness :
  let request := CreateTimeSlot "s9" 5 "e1"
                   (Some (CreateTimeSlotRequest.mk Time.zero (minutes 60))) in
  let st := run [CreateEvent "e1" 1 (Some (CreateEventRequest.mk "Sync" "" "org" 60))] in
  (serve request st).1 = 400 ∧ (serve request st).2 = st.
Proof.
  intros request st.
  assert ((serve request st).1 = 400) as Hcode by (vm_compute; reflexivity).
  split; [exact Hcode|].
  apply (failed_request_keeps_store request st). rewrite Hcode. lia.
Defined.

(** ** Invariants of the store *)

Lemma findRecord_Some eventID userID timeslotID range id avail :
  findRecord eventID userID timeslotID range = Some (id, avail) →
  (id, avail) ∈ range
  ∧ UserAvailability.EventID avail = eventID
  ∧ UserAvailability.UserID avail = userID
  ∧ UserAvailability.TimeSlotID avail = timeslotID.
Proof.
  intros [Hin Hm]%find_some. split; [by apply list_elem_of_In|].
  unfold isRecordOf in Hm. simpl in Hm.
  apply andb_true_iff in Hm as [[Ha Hb]%andb_true_iff Hc].
  apply bool_decide_eq_true in Ha, Hb, Hc. done.
Qed.

Lemma findRecord_stored st eventID userID timeslotID range id avail :
  ranges (userAvailability st) range →
  findRecord eventID userID timeslotID range = Some (id, avail) →
  userAvailability st !! id = Some avail
  ∧ recordFor st eventID userID timeslotID avail.
Proof.
  intros Hr (Hin & ? & ? & ?)%findRecord_Some.
  rewrite Hr in Hin. apply elem_of_map_to_list in Hin.
  split; [done|]. split; [by exists id|done].
Qed.

Lemma findRecord_None st eventID userID timeslotID range :
  ranges (userAvailability st) range →
  findRecord eventID userID timeslotID range = None →
  ∀ avail, ¬ recordFor st eventID userID timeslotID avail.
Proof.
  intros Hr Hnone avail [[id Hid] (? & ? & ?)].
  assert ((id, avail) ∈ range) as Hin by (rewrite Hr; by apply elem_of_map_to_list).
  apply list_elem_of_In in Hin.
  pose proof (find_none _ _ Hnone _ Hin) as Hm. simpl in Hm.
  unfold isRecordOf in Hm. rewrite !bool_decide_eq_true_2 in Hm by done. done.
Qed.

Lemma wellKeyed_serve request st : wellKeyed st → wellKeyed (serve request st).2.
Proof.
  intros (Hev & Hsl & Hav).
  destruct request; simpl;
    unfold createEvent, updateEvent, deleteEvent, createTimeSlot, updateTimeSlot,
      deleteTimeSlot, createUserAvailability, updateUserAvailability,
      deleteUserAvailability;
    repeat (case_match; simpl; try done);
    (split; [|split]); simpl; try done; intros id x.
  - intros [[<- <-]|[_ ?]]%lookup_insert_Some; [done|eauto].
  - intros [[<- <-]|[_ ?]]%lookup_insert_Some; [simpl; eauto|eauto].
  - intros [_ ?]%lookup_delete_Some. eauto.
  - intros [[<- <-]|[_ ?]]%lookup_insert_Some; [done|eauto].
  - intros [[<- <-]|[_ ?]]%lookup_insert_Some; [simpl; eauto|eauto].
  - intros [_ ?]%lookup_delete_Some. eauto.
  - intros [[<- <-]|[_ ?]]%lookup_insert_Some; [done|eauto].
  - intros [[<- <-]|[_ ?]]%lookup_insert_Some; [done|eauto].
  - intros [_ ?]%lookup_delete_Some. eauto.
Qed.

(** X2.  In every store that the server can reach, each event, slot and
    availability record is stored under its own [ID]: the handlers that
    create use the fresh identifier for both, and the handlers that update
    write a stored entry back where it was found. *)
Theorem reachable_wellKeyed st : reachable st → wellKeyed st.
Proof.
  induction 1 as [|request st _ IH _].
  - split_and!; intros id x Hx; simpl in Hx; by rewrite lookup_empty in Hx.
  - by apply wellKeyed_serve.
Qed.

Lemma reachable_run requests :
  Forall (λ request, ∀ st, admissible request st) requests → reachable (run requests).
Proof.
  unfold run. induction requests as [|request requests IH] using rev_ind; intros Hadm.
  - constructor.
  - rewrite Forall_app, Forall_singleton in Hadm. destruct Hadm as [Hadm Hlast].
    rewrite foldl_app. simpl. apply reachable_serve; [by apply IH|]. apply Hlast.
Qed.

Lemma changedMindRequests_run : run changedMindRequests = changedMindStore.
Proof. vm_compute; reflexivity. Qed.

Lemma changedMindStore_reachable : reachable changedMindStore.
Proof.
  rewrite <-changedMindRequests_run. apply reachable_run.
  repeat constructor.
Qed.

Lemma reachable_wellKeyed_witness :
  reachable changedMindStore
  ∧ ∀ id avail, userAvailability changedMindStore !! id = Some avail →
      UserAvailability.ID avail = id.
Proof.
  split; [exact changedMindStore_reachable|].
  apply (reachable_wellKeyed changedMindStore changedMindStore_reachable).
Defined.

Lemma ShouldBindJSON_Some {R : Type} (valid : R → bool) body req :
  ShouldBindJSON valid body = Some req → body = Some req ∧ valid req = true.
Proof.
  unfold ShouldBindJSON. destruct body as [r|]; [|done].
  destruct (valid r) eqn:Hvalid; [|done]. by intros [= <-].
Qed.

Lemma CreateEventRequest_valid req :
  CreateEventRequest.valid req = true
  ↔ CreateEventRequest.Title req ≠ "" ∧ CreateEventRequest.OrganizerID req ≠ ""
    ∧ CreateEventRequest.RequiredDuration req ≠ 0%Z.
Proof.
  unfold CreateEventRequest.valid.
  rewrite !andb_true_iff, !bool_decide_eq_true. tauto.
Qed.

Lemma UserAvailabilityRequest_valid req :
  UserAvailabilityRequest.valid req = true
  ↔ UserAvailabilityRequest.TimeSlotID req ≠ ""
    ∧ (UserAvailabilityRequest.Status req = "available"
       ∨ UserAvailabilityRequest.Status req = "unavailable").
Proof.
  unfold UserAvailabilityRequest.valid.
  rewrite andb_true_iff, orb_true_iff, !bool_decide_eq_true. tauto.
Qed.

Lemma validated_serve request st :
  validated st → admissible request st → validated (serve request st).2.
Proof.
  intros (Hev & Hsl & Hav) Hadm.
  destruct request; simpl;
    unfold createEvent, updateEvent, deleteEvent, createTimeSlot, updateTimeSlot,
      deleteTimeSlot, createUserAvailability, updateUserAvailability,
      deleteUserAvailability;
    repeat (case_match; simpl; try done);
    repeat match goal with
    | H : ShouldBindJSON _ _ = Some _ |- _ => apply ShouldBindJSON_Some in H as [-> H]
    | H : CreateEventRequest.valid _ = true |- _ => apply CreateEventRequest_valid in H
    | H : UserAvailabilityRequest.valid _ = true |- _ =>
        apply UserAvailabilityRequest_valid in H
    | H : Time.Before _ _ = false |- _ => apply Z.ltb_ge in H
    end;
    (split; [|split]); simpl; try done; intros id x.
  - intros [[<- <-]|[_ ?]]%lookup_insert_Some; [simpl; tauto|eauto].
  - intros [[<- <-]|[_ ?]]%lookup_insert_Some; [|eauto].
    simpl. split_and!; try tauto. by eapply Hev.
  - intros [_ ?]%lookup_delete_Some. eauto.
  - intros [[<- <-]|[_ ?]]%lookup_insert_Some; [done|eauto].
  - intros [[<- <-]|[_ ?]]%lookup_insert_Some; [done|eauto].
  - intros [_ ?]%lookup_delete_Some. eauto.
  - intros [[<- <-]|[_ ?]]%lookup_insert_Some; [simpl; tauto|eauto].
  - intros [[<- <-]|[_ ?]]%lookup_insert_Some; [|eauto].
    simpl in Hadm.
    match goal with
    | H : findRecord _ _ _ _ = Some _ |- _ =>
        apply (findRecord_stored st) in H as [Hstored _]; [|done]
    end.
    simpl. split; [by eapply Hav|tauto].
  - intros [_ ?]%lookup_delete_Some. eauto.
Qed.

(** X3.  In every store that the server can reach the stored values have
    passed the checks of the handlers: every event has a non-empty title
    and organizer, a required duration other than 0 and the status
    [active]; no slot ends before it starts; every availability record
    names a slot and has the status [available] or [unavailable]. *)
Theorem reachable_validated st : reachable st → validated st.
Proof.
  induction 1 as [|request st _ IH Hadm].
  - split_and!; intros id x Hx; simpl in Hx; by rewrite lookup_empty in Hx.
  - by apply validated_serve.
Qed.

Lemma reachable_validated_witness :
  reachable changedMindStore
  ∧ ∀ id slot, timeSlots changedMindStore !! id = Some slot →
      (TimeSlot.StartTime slot ≤ TimeSlot.EndTime slot)%Z.
Proof.
  split; [exact changedMindStore_reachable|].
  apply (reachable_validated changedMindStore changedMindStore_reachable).
Defined.

Lemma run_wellKeyed requests : wellKeyed (run requests).
Proof.
  unfold run. induction requests as [|request requests IH] using rev_ind.
  - split_and!; intros id x Hx; simpl in Hx; by rewrite lookup_empty in Hx.
  - rewrite foldl_app. simpl. by apply wellKeyed_serve.
Qed.

Lemma changedMindStore_wellKeyed : wellKeyed changedMindStore.
Proof. rewrite <-changedMindRequests_run. apply run_wellKeyed. Qed.

Ltac ranges_of_map :=
  unfold ranges; vm_compute; apply (bool_decide_unpack _); vm_compute; exact I.

(** ** The handlers that list *)

Lemma foldl_snoc_fmap {A B : Type} (f : A → B) (l : list A) :
  foldl (λ acc x, acc ++ [f x]) [] l = f <$> l.
Proof.
  enough (∀ acc, foldl (λ acc x, acc ++ [f x]) acc l = acc ++ (f <$> l)) as H
    by apply (H []).
  induction l as [|x l IH]; intros acc; simpl.
  - by rewrite app_nil_r.
  - by rewrite IH, <-app_assoc.
Qed.

Lemma foldl_snoc_filter {A B : Type} (P : A → bool) (f : A → B) (l : list A) :
  foldl (λ acc x, if P x then acc ++ [f x] else acc) [] l
  = f <$> filter (λ x, P x = true) l.
Proof.
  enough (∀ acc, foldl (λ acc x, if P x then acc ++ [f x] else acc) acc l
                 = acc ++ (f <$> filter (λ x, P x = true) l)) as H by apply (H []).
  induction l as [|x l IH]; intros acc; simpl.
  - by rewrite app_nil_r.
  - rewrite IH, filter_cons. destruct (P x); simpl; [|done].
    by rewrite <-app_assoc.
Qed.

(** The values of a visit are distinct when the entries are stored under
    an identifier of their own. *)
Lemma NoDup_values {V : Type} (ID : V → string) (m : gmap string V) range :
  (∀ id x, m !! id = Some x → ID x = id) → ranges m range → NoDup (range.*2).
Proof.
  intros Hkey Hr. rewrite Hr.
  apply NoDup_fmap_2_strong; [|apply NoDup_map_to_list].
  intros [id1 x1] [id2 x2] H1%elem_of_map_to_list H2%elem_of_map_to_list; simpl.
  intros <-. apply Hkey in H1, H2. congruence.
Qed.

(** X4.  [listEvents] answers 200 with every stored event exactly once, in
    the order of the visit of the map. *)
Theorem listEvents_all st range :
  wellKeyed st →
  ranges (events st) range →
  ∃ eventList,
    listEvents range = StatusOK eventList
    ∧ NoDup eventList
    ∧ length eventList = size (events st)
    ∧ ∀ event, event ∈ eventList ↔ ∃ id, events st !! id = Some event.
Proof.
  intros (Hkey & _) Hr. exists (range.*2).
  unfold listEvents. rewrite (foldl_snoc_fmap snd). split_and!; [done|..].
  - by apply (NoDup_values Event.ID (events st)).
  - by rewrite length_fmap, Hr, length_map_to_list.
  - intros event. rewrite list_elem_of_fmap. split.
    + intros ([id e] & -> & Hin). rewrite Hr in Hin.
      apply elem_of_map_to_list in Hin. eauto.
    + intros [id Hid]. exists (id, event). split; [done|].
      rewrite Hr. by apply elem_of_map_to_list.
Qed.

Lemma listEvents_all_witness :
  wellKeyed changedMindStore
  ∧ ranges (events changedMindStore) [("e1", syncEvent)]
  ∧ ∃ eventList, listEvents [("e1", syncEvent)] = StatusOK eventList
                 ∧ length eventList = size (events changedMindStore).
Proof.
  assert (ranges (events changedMindStore) [("e1", syncEvent)]) as Hr by ranges_of_map.
  split; [exact changedMindStore_wellKeyed|]. split; [exact Hr|].
  destruct (listEvents_all changedMindStore _ changedMindStore_wellKeyed Hr)
    as (eventList & Hlist & _ & Hlen & _).
  exists eventList. split; [exact Hlist | exact Hlen].
Defined.

(** X5.  [listTimeSlots] answers 200 with exactly the stored slots whose
    [EventID] is the event of the path, each once, in the order of the
    visit; it does not look the event up, so the slots of an event that is
    no longer stored are still listed. *)
Theorem listTimeSlots_of_event st eventID range :
  wellKeyed st →
  ranges (timeSlots st) range →
  ∃ slotList,
    listTimeSlots eventID range = StatusOK slotList
    ∧ NoDup slotList
    ∧ ∀ slot, slot ∈ slotList
              ↔ TimeSlot.EventID slot = eventID ∧ ∃ id, timeSlots st !! id = Some slot.
Proof.
  intros (_ & Hkey & _) Hr. exists (eventSlotsOf eventID range).
  split_and!; [done|..].
  - rewrite eventSlotsOf_filter. apply NoDup_filter.
    by apply (NoDup_values TimeSlot.ID (timeSlots st)).
  - intros slot. by apply elem_of_eventSlotsOf.
Qed.

Lemma listTimeSlots_of_event_witness :
  wellKeyed changedMindStore
  ∧ ranges (timeSlots changedMindStore) [("s1", onlySlot)]
  ∧ ∃ slotList, listTimeSlots "e1" [("s1", onlySlot)] = StatusOK slotList
                ∧ NoDup slotList.
Proof.
  assert (ranges (timeSlots changedMindStore) [("s1", onlySlot)]) as Hr
    by ranges_of_map.
  split; [exact changedMindStore_wellKeyed|]. split; [exact Hr|].
  destruct (listTimeSlots_of_event changedMindStore "e1" _ changedMindStore_wellKeyed Hr)
    as (slotList & Hlist & Hnodup & _).
  exists slotList. split; [exact Hlist | exact Hnodup].
Defined.

(** X6.  [getUserAvailability] answers 200 with exactly the stored records
    that carry the event and the user of the path, each once, in the order
    of the visit; neither the event nor the user has to exist. *)
Theorem getUserAvailability_of_user st eventID userID range :
  wellKeyed st →
  ranges (userAvailability st) range →
  ∃ availabilityList,
    getUserAvailability eventID userID range = StatusOK availabilityList
    ∧ NoDup availabilityList
    ∧ ∀ avail, avail ∈ availabilityList
               ↔ UserAvailability.EventID avail = eventID
                 ∧ UserAvailability.UserID avail = userID
                 ∧ ∃ id, userAvailability st !! id = Some avail.
Proof.
  intros (_ & _ & Hkey) Hr. unfold getUserAvailability.
  rewrite (foldl_snoc_filter
             (λ kv, bool_decide (UserAvailability.EventID kv.2 = eventID)
                    && bool_decide (UserAvailability.UserID kv.2 = userID)) snd).
  eexists. split; [done|]. split.
  - apply NoDup_fmap_2_strong.
    + intros [id1 x1] [id2 x2] [_ H1]%list_elem_of_filter [_ H2]%list_elem_of_filter.
      simpl. intros <-. rewrite Hr in H1, H2.
      apply elem_of_map_to_list, Hkey in H1. apply elem_of_map_to_list, Hkey in H2.
      congruence.
    + apply NoDup_filter. rewrite Hr. apply NoDup_map_to_list.
  - intros avail. rewrite list_elem_of_fmap. split.
    + intros ([id x] & -> & [Hm Hin]%list_elem_of_filter). simpl in *.
      apply andb_true_iff in Hm as [?%bool_decide_eq_true ?%bool_decide_eq_true].
      rewrite Hr in Hin. apply elem_of_map_to_list in Hin. eauto.
    + intros (? & ? & id & Hid). exists (id, avail). split; [done|].
      apply list_elem_of_filter. simpl. split.
      * by rewrite !bool_decide_eq_true_2.
      * rewrite Hr. by apply elem_of_map_to_list.
Qed.

Lemma getUserAvailability_of_user_witness :
  let range := [("a1", firstAnswer); ("a2", secondAnswer)] in
  wellKeyed changedMindStore
  ∧ ranges (userAvailability changedMindStore) range
  ∧ ∃ availabilityList,
      getUserAvailability "e1" "u1" range = StatusOK availabilityList
      ∧ NoDup availabilityList.
Proof.
  intros range.
  assert (ranges (userAvailability changedMindStore) range) as Hr by ranges_of_map.
  split; [exact changedMindStore_wellKeyed|]. split; [exact Hr|].
  destruct (getUserAvailability_of_user changedMindStore "e1" "u1" range
              changedMindStore_wellKeyed Hr) as (availabilityList & Hlist & Hnodup & _).
  exists availabilityList. split; [exact Hlist | exact Hnodup].
Defined.

(** ** Events *)

(** X7.  A [createEvent] whose body binds answers 201 with an event that
    carries the fresh identifier, the four fields of the request, the
    status [active] and the time of the call twice; [getEvent] then returns
    that event, answers for every other identifier as before, and the slots
    and records are untouched.  With a fresh identifier the number of
    stored events grows by one. *)
Theorem createEvent_getEvent uuid now req st :
  CreateEventRequest.valid req = true →
  ∃ event st',
    createEvent uuid now (Some req) st = (StatusCreated event, st')
    ∧ getEvent uuid st' = StatusOK event
    ∧ Event.ID event = uuid
    ∧ Event.Title event = CreateEventRequest.Title req
    ∧ Event.Description event = CreateEventRequest.Description req
    ∧ Event.OrganizerID event = CreateEventRequest.OrganizerID req
    ∧ Event.RequiredDuration event = CreateEventRequest.RequiredDuration req
    ∧ Event.Status event = "active"
    ∧ Event.CreatedAt event = now ∧ Event.UpdatedAt event = now
    ∧ (∀ other, other ≠ uuid → getEvent other st' = getEvent other st)
    ∧ (events st !! uuid = None → size (events st') = S (size (events st)))
    ∧ timeSlots st' = timeSlots st
    ∧ userAvailability st' = userAvailability st.
Proof.
  intros Hvalid. unfold createEvent. simpl. rewrite Hvalid.
  eexists _, _. split; [done|]. unfold getEvent. simpl.
  rewrite lookup_insert_eq. split_and!; try done.
  - intros other ?. by rewrite lookup_insert_ne.
  - intros Hfresh. by apply map_size_insert_None.
Qed.

Lemma createEvent_getEvent_witness :
  let req := CreateEventRequest.mk "Team Meeting" "Weekly team sync" "user1" 60 in
  CreateEventRequest.valid req = true
  ∧ ∃ event st',
      createEvent "e1" 1 (Some req) emptyStore = (StatusCreated event, st')
      ∧ getEvent "e1" st' = StatusOK event
      ∧ size (events st') = 1.
Proof.
  intros req.
  assert (CreateEventRequest.valid req = true) as Hvalid by (vm_compute; reflexivity).
  split; [exact Hvalid|].
  destruct (createEvent_getEvent "e1" 1 req emptyStore Hvalid)
    as (event & st' & Hrun & Hget & _ & _ & _ & _ & _ & _ & _ & _ & _ & Hsize & _).
  exists event, st'. split; [exact Hrun|]. split; [exact Hget|].
  apply Hsize. reflexivity.
Defined.

(** X8.  [deleteEvent] of a stored event answers 204 and removes that
    event only: [getEvent] and [getRecommendations] answer 404 for it
    afterwards, while its slots and availability records stay in the
    store. *)
Theorem deleteEvent_keeps_slots eventID st event :
  events st !! eventID = Some event →
  ∃ st',
    deleteEvent eventID st = (StatusNoContent, st')
    ∧ getEvent eventID st' = StatusNotFound "Event not found"
    ∧ (∀ o, getRecommendations o eventID st' = StatusNotFound "Event not found")
    ∧ (∀ other, other ≠ eventID → getEvent other st' = getEvent other st)
    ∧ size (events st') = pred (size (events st))
    ∧ timeSlots st' = timeSlots st
    ∧ userAvailability st' = userAvailability st.
Proof.
  intros Hev. unfold deleteEvent. rewrite Hev. eexists. split; [done|].
  unfold getEvent, getRecommendations. simpl. rewrite lookup_delete_eq.
  split_and!; try done.
  - intros other ?. by rewrite lookup_delete_ne.
  - apply map_size_delete_Some. eauto.
Qed.

Lemma deleteEvent_keeps_slots_witness :
  events changedMindStore !! "e1" = Some syncEvent
  ∧ ∃ st', deleteEvent "e1" changedMindStore = (StatusNoContent, st')
           ∧ timeSlots st' = timeSlots changedMindStore
           ∧ userAvailability st' = userAvailability changedMindStore.
Proof.
  assert (events changedMindStore !! "e1" = Some syncEvent) as Hev
    by (vm_compute; reflexivity).
  split; [exact Hev|].
  destruct (deleteEvent_keeps_slots "e1" changedMindStore syncEvent Hev)
    as (st' & Hrun & _ & _ & _ & _ & Hslots & Hrecords).
  exists st'. split; [exact Hrun|]. split; [exact Hslots | exact Hrecords].
Defined.

(** ** Time slots *)

Lemma CreateTimeSlotRequest_refused req :
  CreateTimeSlotRequest.StartTime req = Time.zero
  ∨ CreateTimeSlotRequest.EndTime req = Time.zero →
  ShouldBindJSON CreateTimeSlotRequest.valid (Some req) = None.
Proof.
  intros Hzero. unfold ShouldBindJSON, CreateTimeSlotRequest.valid.
  destruct Hzero as [-> | ->].
  - by rewrite bool_decide_false by (intros H; by apply H).
  - rewrite (bool_decide_false (Time.zero ≠ Time.zero)) by (intros H; by apply H).
    by rewrite andb_false_r.
Qed.

Lemma CreateTimeSlotRequest_bound req :
  CreateTimeSlotRequest.StartTime req ≠ Time.zero →
  CreateTimeSlotRequest.EndTime req ≠ Time.zero →
  ShouldBindJSON CreateTimeSlotRequest.valid (Some req) = Some req.
Proof.
  intros Hstart Hend. unfold ShouldBindJSON, CreateTimeSlotRequest.valid.
  by rewrite !bool_decide_true.
Qed.

Lemma ranges_insert {V : Type} (m : gmap string V) id x range' :
  m !! id = None → ranges (<[id := x]> m) range' → range' ≡ₚ (id, x) :: map_to_list m.
Proof. intros Hfresh Hr. unfold ranges in Hr. by rewrite Hr, map_to_list_insert. Qed.

(** X9.  For a stored event, [createTimeSlot] answers 400 and stores
    nothing when the start or the end of the body is the zero [time.Time],
    which is also what a missing field decodes to.  With both times bound
    and the end not before the start it answers 201 and stores the slot
    under the fresh identifier with the event of the path; a slot of length
    zero is accepted.  [listTimeSlots] for that event then lists the new
    slot together with the slots listed before. *)
Theorem createTimeSlot_listed uuid now eventID req st event range range' :
  events st !! eventID = Some event →
  timeSlots st !! uuid = None →
  ranges (timeSlots st) range →
  (CreateTimeSlotRequest.StartTime req = Time.zero
   ∨ CreateTimeSlotRequest.EndTime req = Time.zero →
   createTimeSlot uuid now eventID (Some req) st = (StatusBadRequest, st))
  ∧ (CreateTimeSlotRequest.StartTime req ≠ Time.zero →
     CreateTimeSlotRequest.EndTime req ≠ Time.zero →
     (CreateTimeSlotRequest.StartTime req ≤ CreateTimeSlotRequest.EndTime req)%Z →
     ∃ slot st',
       createTimeSlot uuid now eventID (Some req) st = (StatusCreated slot, st')
       ∧ slot = TimeSlot.mk uuid eventID (CreateTimeSlotRequest.StartTime req)
                  (CreateTimeSlotRequest.EndTime req) now now
       ∧ timeSlots st' !! uuid = Some slot
       ∧ (ranges (timeSlots st') range' →
          ∃ before after,
            listTimeSlots eventID range = StatusOK before
            ∧ listTimeSlots eventID range' = StatusOK after
            ∧ after ≡ₚ slot :: before)).
Proof.
  intros Hev Hfresh Hr. unfold createTimeSlot. rewrite Hev. split.
  - intros Hzero. rewrite (CreateTimeSlotRequest_refused req Hzero). reflexivity.
  - intros Hstart Hend Hle.
    rewrite (CreateTimeSlotRequest_bound req Hstart Hend).
    assert (Time.Before (CreateTimeSlotRequest.EndTime req)
              (CreateTimeSlotRequest.StartTime req) = false) as ->
      by (by apply Z.ltb_ge).
    eexists _, _. split; [done|]. split; [done|]. simpl.
    split; [by rewrite lookup_insert_eq|].
    intros Hr'. eexists _, _. split; [done|]. split; [done|].
    rewrite !eventSlotsOf_filter.
    rewrite (ranges_insert _ _ _ _ Hfresh Hr'), Hr. simpl.
    rewrite filter_cons. simpl. by rewrite decide_True.
Qed.

Lemma createTimeSlot_listed_witness :
  let st := run [CreateEvent "e1" 1 (Some (CreateEventRequest.mk "Sync" "" "org" 60))] in
  let req := CreateTimeSlotRequest.mk (minutes 0) (minutes 0) in
  let missing := CreateTimeSlotRequest.mk Time.zero (minutes 0) in
  let slot := TimeSlot.mk "s1" "e1" (minutes 0) (minutes 0) 2 2 in
  events st !! "e1" = Some syncEvent
  ∧ timeSlots st !! "s1" = None
  ∧ ranges (timeSlots st) []
  ∧ createTimeSlot "s1" 2 "e1" (Some missing) st = (StatusBadRequest, st)
  ∧ CreateTimeSlotRequest.StartTime req ≠ Time.zero
  ∧ CreateTimeSlotRequest.EndTime req ≠ Time.zero
  ∧ (CreateTimeSlotRequest.StartTime req ≤ CreateTimeSlotRequest.EndTime req)%Z
  ∧ ∃ st', createTimeSlot "s1" 2 "e1" (Some req) st = (StatusCreated slot, st').
Proof.
  intros st req missing slot.
  assert (events st !! "e1" = Some syncEvent) as Hev by (vm_compute; reflexivity).
  assert (timeSlots st !! "s1" = None) as Hfresh by (vm_compute; reflexivity).
  assert (ranges (timeSlots st) []) as Hr by ranges_of_map.
  assert (CreateTimeSlotRequest.StartTime req ≠ Time.zero) as Hstart
    by (vm_compute; discriminate).
  assert (CreateTimeSlotRequest.EndTime req ≠ Time.zero) as Hend
    by (vm_compute; discriminate).
  assert (CreateTimeSlotRequest.StartTime req ≤ CreateTimeSlotRequest.EndTime req)%Z
    as Hle by (vm_compute; discriminate).
  split; [exact Hev|]. split; [exact Hfresh|]. split; [exact Hr|].
  split.
  { apply (createTimeSlot_listed "s1" 2 "e1" missing st syncEvent [] [] Hev Hfresh Hr).
    left. reflexivity. }
  split; [exact Hstart|]. split; [exact Hend|]. split; [exact Hle|].
  destruct (createTimeSlot_listed "s1" 2 "e1" req st syncEvent [] [] Hev Hfresh Hr)
    as [_ Hok].
  destruct (Hok Hstart Hend Hle) as (slot' & st' & Hrun & -> & _).
  exists st'. exact Hrun.
Defined.

(** X10.  [updateTimeSlot] looks the slot up by the [timeslotId] of the path
    alone, whatever the event of the path, stored or not.  A body whose
    start or end is the zero [time.Time], or whose end is before its start,
    answers 400 and leaves the slot as it was.  A body with both times
    bound and the end not before the start answers 200 and replaces the
    start and the end of the slot and its update time, keeping its
    identifier, its event and its creation time.  Nothing else in the store
    changes. *)
Theorem updateTimeSlot_any_event now eventID timeslotID req st stored :
  timeSlots st !! timeslotID = Some stored →
  (CreateTimeSlotRequest.StartTime req = Time.zero
   ∨ CreateTimeSlotRequest.EndTime req = Time.zero
   ∨ (CreateTimeSlotRequest.EndTime req < CreateTimeSlotRequest.StartTime req)%Z →
   updateTimeSlot now eventID timeslotID (Some req) st = (StatusBadRequest, st))
  ∧ (CreateTimeSlotRequest.StartTime req ≠ Time.zero →
     CreateTimeSlotRequest.EndTime req ≠ Time.zero →
     (CreateTimeSlotRequest.StartTime req ≤ CreateTimeSlotRequest.EndTime req)%Z →
     ∃ slot st',
       updateTimeSlot now eventID timeslotID (Some req) st = (StatusOK slot, st')
       ∧ timeSlots st' !! timeslotID = Some slot
       ∧ TimeSlot.ID slot = TimeSlot.ID stored
       ∧ TimeSlot.EventID slot = TimeSlot.EventID stored
       ∧ TimeSlot.CreatedAt slot = TimeSlot.CreatedAt stored
       ∧ TimeSlot.StartTime slot = CreateTimeSlotRequest.StartTime req
       ∧ TimeSlot.EndTime slot = CreateTimeSlotRequest.EndTime req
       ∧ TimeSlot.UpdatedAt slot = now
       ∧ (∀ other, other ≠ timeslotID → timeSlots st' !! other = timeSlots st !! other)
       ∧ events st' = events st
       ∧ userAvailability st' = userAvailability st).
Proof.
  intros Hslot. unfold updateTimeSlot. rewrite Hslot. split.
  - intros [Hzero | [Hzero | Hlt]].
    + by rewrite (CreateTimeSlotRequest_refused req) by (by left).
    + by rewrite (CreateTimeSlotRequest_refused req) by (by right).
    + destruct (ShouldBindJSON CreateTimeSlotRequest.valid (Some req)) as [req'|] eqn:Hbind;
        [|reflexivity].
      apply ShouldBindJSON_Some in Hbind as [[= <-] _].
      apply Z.ltb_lt in Hlt. unfold Time.Before. by rewrite Hlt.
  - intros Hstart Hend Hle. rewrite (CreateTimeSlotRequest_bound req Hstart Hend).
    apply Z.ltb_ge in Hle. unfold Time.Before. rewrite Hle.
    eexists _, _. split; [done|]. simpl. rewrite lookup_insert_eq.
    split_and!; try done. intros other ?. by rewrite lookup_insert_ne.
Qed.

Lemma updateTimeSlot_any_event_witness :
  let req := CreateTimeSlotRequest.mk (minutes 30) (minutes 45) in
  timeSlots changedMindStore !! "s1" = Some onlySlot
  ∧ events changedMindStore !! "no such event" = None
  ∧ CreateTimeSlotRequest.StartTime req ≠ Time.zero
  ∧ CreateTimeSlotRequest.EndTime req ≠ Time.zero
  ∧ (CreateTimeSlotRequest.StartTime req ≤ CreateTimeSlotRequest.EndTime req)%Z
  ∧ ∃ st', updateTimeSlot 30 "no such event" "s1" (Some req) changedMindStore
           = (StatusOK (TimeSlot.mk "s1" "e1" (minutes 30) (minutes 45) 2 30), st').
Proof.
  intros req.
  assert (timeSlots changedMindStore !! "s1" = Some onlySlot) as Hslot
    by (vm_compute; reflexivity).
  assert (CreateTimeSlotRequest.StartTime req ≠ Time.zero) as Hstart'
    by (vm_compute; discriminate).
  assert (CreateTimeSlotRequest.EndTime req ≠ Time.zero) as Hend'
    by (vm_compute; discriminate).
  assert (CreateTimeSlotRequest.StartTime req ≤ CreateTimeSlotRequest.EndTime req)%Z
    as Hle by (vm_compute; discriminate).
  split; [exact Hslot|]. split; [vm_compute; reflexivity|].
  split; [exact Hstart'|]. split; [exact Hend'|]. split; [exact Hle|].
  destruct (updateTimeSlot_any_event 30 "no such event" "s1" req changedMindStore
              onlySlot Hslot) as [_ Hok].
  destruct (Hok Hstart' Hend' Hle)
    as (slot & st' & Hrun & _ & Hid & Hevent & Hcreated & Hstart & Hend & Hup & _).
  exists st'. rewrite Hrun. f_equal.
  destruct slot. simpl in Hid, Hevent, Hcreated, Hstart, Hend, Hup.
  rewrite Hid, Hevent, Hcreated, Hstart, Hend, Hup. reflexivity.
Defined.

(** X11.  [deleteTimeSlot] of a stored slot answers 204 and removes the slot
    only, whatever the event of the path: the availability records that
    name the slot stay in the store, so their users remain known users of
    their events, and a later [createUserAvailability] for that slot
    answers 404. *)
Theorem deleteTimeSlot_keeps_records eventID timeslotID st slot :
  timeSlots st !! timeslotID = Some slot →
  ∃ st',
    deleteTimeSlot eventID timeslotID st = (StatusNoContent, st')
    ∧ timeSlots st' !! timeslotID = None
    ∧ (∀ other, other ≠ timeslotID → timeSlots st' !! other = timeSlots st !! other)
    ∧ events st' = events st
    ∧ userAvailability st' = userAvailability st
    ∧ (∀ e u s avail, recordFor st e u s avail → recordFor st' e u s avail)
    ∧ (∀ e u, knownUser st e u → knownUser st' e u)
    ∧ (∀ uuid now e u req,
         is_Some (events st !! e) →
         UserAvailabilityRequest.valid req = true →
         UserAvailabilityRequest.TimeSlotID req = timeslotID →
         createUserAvailability uuid now e u (Some req) st'
         = (StatusNotFound "Time slot not found", st')).
Proof.
  intros Hslot. unfold deleteTimeSlot. rewrite Hslot. eexists. split; [done|].
  simpl. rewrite lookup_delete_eq. split_and!; try done.
  - intros other ?. by rewrite lookup_delete_ne.
  - intros uuid now e u req [event Hev] Hvalid <-.
    unfold createUserAvailability. simpl. rewrite Hev. simpl.
    by rewrite Hvalid, lookup_delete_eq.
Qed.

Lemma deleteTimeSlot_keeps_records_witness :
  timeSlots changedMindStore !! "s1" = Some onlySlot
  ∧ ∃ st', deleteTimeSlot "e1" "s1" changedMindStore = (StatusNoContent, st')
           ∧ knownUser st' "e1" "u1".
Proof.
  assert (timeSlots changedMindStore !! "s1" = Some onlySlot) as Hslot
    by (vm_compute; reflexivity).
  split; [exact Hslot|].
  destruct (deleteTimeSlot_keeps_records "e1" "s1" changedMindStore onlySlot Hslot)
    as (st' & Hrun & _ & _ & _ & _ & _ & Hknown & _).
  exists st'. split; [exact Hrun|].
  apply Hknown. exists "s1", firstAnswer.
  split; [|split_and!; reflexivity]. exists "a1". vm_compute; reflexivity.
Defined.

(** ** Availability records *)

Lemma findRecord_is_Some st eventID userID timeslotID range avail :
  ranges (userAvailability st) range →
  recordFor st eventID userID timeslotID avail →
  is_Some (findRecord eventID userID timeslotID range).
Proof.
  intros Hr Hrec. destruct (findRecord _ _ _ range) eqn:Hfind; [by eauto|].
  by destruct (findRecord_None st _ _ _ _ Hr Hfind avail).
Qed.

(** X12.  [updateUserAvailability] searches the record before it binds the
    body: without a stored record of the user, event and slot of the path
    the answer is 404 whatever the body.  Otherwise a body that binds
    answers 200 and changes one stored record of that user, event and
    slot, the first that the visit of the map meets: its status becomes
    the status of the body and its update time the time of the call; its
    identifier, user, event, slot and creation time stay, also when the
    body names another slot.  No other record changes and none is
    added. *)
Theorem updateUserAvailability_one_record range now eventID userID timeslotID st :
  wellKeyed st →
  ranges (userAvailability st) range →
  ((∀ avail, ¬ recordFor st eventID userID timeslotID avail) →
   ∀ body, updateUserAvailability range now eventID userID timeslotID body st
           = (StatusNotFound "Availability record not found", st))
  ∧ (∀ req,
       UserAvailabilityRequest.valid req = true →
       (∃ avail, recordFor st eventID userID timeslotID avail) →
       ∃ target st',
         let updated := UserAvailability.mk
                          (UserAvailability.ID target) userID eventID timeslotID
                          (UserAvailabilityRequest.Status req)
                          (UserAvailability.CreatedAt target) now in
         recordFor st eventID userID timeslotID target
         ∧ userAvailability st !! UserAvailability.ID target = Some target
         ∧ updateUserAvailability range now eventID userID timeslotID (Some req) st
           = (StatusOK updated, st')
         ∧ userAvailability st'
           = <[UserAvailability.ID target := updated]> (userAvailability st)
         ∧ size (userAvailability st') = size (userAvailability st)
         ∧ events st' = events st
         ∧ timeSlots st' = timeSlots st).
Proof.
  intros (_ & _ & Hkey) Hr. split.
  - intros Hnone body. unfold updateUserAvailability.
    destruct (findRecord _ _ _ range) as [[id target]|] eqn:Hfind; [|done].
    apply (findRecord_stored st) in Hfind as [_ Hrec]; [|done].
    by destruct (Hnone target).
  - intros req Hvalid [avail Hrec].
    destruct (findRecord_is_Some st _ _ _ range avail Hr Hrec) as [[id target] Hfind].
    pose proof (findRecord_stored st _ _ _ _ _ _ Hr Hfind) as [Hid Htarget].
    pose proof (Hkey _ _ Hid) as <-.
    destruct Htarget as (Hstored & Hevent & Huser & Hslot).
    exists target. eexists. cbv zeta.
    unfold updateUserAvailability. rewrite Hfind. simpl. rewrite Hvalid.
    rewrite Hevent, Huser, Hslot. split_and!; try done.
    simpl. apply map_size_insert_Some. eauto.
Qed.

Lemma updateUserAvailability_one_record_witness :
  let range := [("a1", firstAnswer); ("a2", secondAnswer)] in
  let req := UserAvailabilityRequest.mk "another slot" "unavailable" in
  wellKeyed changedMindStore
  ∧ ranges (userAvailability changedMindStore) range
  ∧ UserAvailabilityRequest.valid req = true
  ∧ recordFor changedMindStore "e1" "u1" "s1" firstAnswer
  ∧ ∃ target st',
      updateUserAvailability range 30 "e1" "u1" "s1" (Some req) changedMindStore
      = (StatusOK (UserAvailability.mk (UserAvailability.ID target) "u1" "e1" "s1"
                     "unavailable" (UserAvailability.CreatedAt target) 30), st').
Proof.
  intros range req.
  assert (ranges (userAvailability changedMindStore) range) as Hr by ranges_of_map.
  assert (UserAvailabilityRequest.valid req = true) as Hvalid
    by (vm_compute; reflexivity).
  assert (recordFor changedMindStore "e1" "u1" "s1" firstAnswer) as Hrec.
  { split; [|split_and!; reflexivity]. exists "a1". vm_compute; reflexivity. }
  split; [exact changedMindStore_wellKeyed|]. split; [exact Hr|].
  split; [exact Hvalid|]. split; [exact Hrec|].
  destruct (updateUserAvailability_one_record range 30 "e1" "u1" "s1" changedMindStore
              changedMindStore_wellKeyed Hr) as [_ Hupdate].
  destruct (Hupdate req Hvalid (ex_intro _ firstAnswer Hrec))
    as (target & st' & _ & _ & Hrun & _).
  exists target, st'. exact Hrun.
Defined.

(** X13.  [deleteUserAvailability] answers 404 when no stored record has the
    user, event and slot of the path.  Otherwise it answers 204 and
    removes one such record, the first that the visit of the map meets:
    the number of records drops by one and every other record, of the same
    user and slot included, stays. *)
Theorem deleteUserAvailability_one_record range eventID userID timeslotID st :
  ranges (userAvailability st) range →
  ((∀ avail, ¬ recordFor st eventID userID timeslotID avail) →
   deleteUserAvailability range eventID userID timeslotID st
   = (DeleteNotFound "Availability record not found", st))
  ∧ ((∃ avail, recordFor st eventID userID timeslotID avail) →
     ∃ targetID target st',
       userAvailability st !! targetID = Some target
       ∧ recordFor st eventID userID timeslotID target
       ∧ deleteUserAvailability range eventID userID timeslotID st
         = (StatusNoContent, st')
       ∧ userAvailability st' !! targetID = None
       ∧ (∀ other, other ≠ targetID →
            userAvailability st' !! other = userAvailability st !! other)
       ∧ size (userAvailability st') = pred (size (userAvailability st))
       ∧ events st' = events st
       ∧ timeSlots st' = timeSlots st).
Proof.
  intros Hr. split.
  - intros Hnone. unfold deleteUserAvailability.
    destruct (findRecord _ _ _ range) as [[id target]|] eqn:Hfind; [|done].
    apply (findRecord_stored st) in Hfind as [_ Hrec]; [|done].
    by destruct (Hnone target).
  - intros [avail Hrec].
    destruct (findRecord_is_Some st _ _ _ range avail Hr Hrec) as [[id target] Hfind].
    pose proof (findRecord_stored st _ _ _ _ _ _ Hr Hfind) as [Hid Htarget].
    exists id, target. eexists.
    unfold deleteUserAvailability. rewrite Hfind.
    split; [done|]. split; [done|]. split; [reflexivity|]. simpl.
    rewrite lookup_delete_eq. split_and!; try done.
    + intros other ?. by rewrite lookup_delete_ne.
    + apply map_size_delete_Some. eauto.
Qed.

Lemma deleteUserAvailability_one_record_witness :
  let range := [("a2", secondAnswer); ("a1", firstAnswer)] in
  ranges (userAvailability changedMindStore) range
  ∧ recordFor changedMindStore "e1" "u1" "s1" firstAnswer
  ∧ ∃ st', deleteUserAvailability range "e1" "u1" "s1" changedMindStore
           = (StatusNoContent, st')
           ∧ size (userAvailability st') = 1.
Proof.
  intros range.
  assert (ranges (userAvailability changedMindStore) range) as Hr by ranges_of_map.
  assert (recordFor changedMindStore "e1" "u1" "s1" firstAnswer) as Hrec.
  { split; [|split_and!; reflexivity]. exists "a1". vm_compute; reflexivity. }
  split; [exact Hr|]. split; [exact Hrec|].
  destruct (deleteUserAvailability_one_record range "e1" "u1" "s1" changedMindStore Hr)
    as [_ Hdelete].
  destruct (Hdelete (ex_intro _ firstAnswer Hrec))
    as (targetID & target & st' & _ & _ & Hrun & _ & _ & Hsize & _).
  exists st'. split; [exact Hrun|]. rewrite Hsize. vm_compute; reflexivity.
Defined.

(** ** Updating and recommending *)

(** X14.  When a user has one stored record for a slot of an event, an
    [updateUserAvailability] of it decides where the next
    [getRecommendations] lists the user for that slot: among the available
    users exactly if the new status is [available], among the unavailable
    users otherwise. *)
Theorem update_decides_single_record range now eventID userID timeslotID req st target :
  wellKeyed st →
  ranges (userAvailability st) range →
  recordFor st eventID userID timeslotID target →
  (∀ other, recordFor st eventID userID timeslotID other → other = target) →
  UserAvailabilityRequest.valid req = true →
  ∃ updated st',
    updateUserAvailability range now eventID userID timeslotID (Some req) st
    = (StatusOK updated, st')
    ∧ ∀ o recs r,
        rangesOver st' eventID o →
        getRecommendations o eventID st' = StatusOK recs →
        r ∈ recs →
        TimeSlot.ID (Recommendation.TimeSlot r) = timeslotID →
        (userID ∈ Recommendation.AvailableUsers r
         ↔ UserAvailabilityRequest.Status req = "available")
        ∧ (userID ∈ Recommendation.UnavailableUsers r
           ↔ UserAvailabilityRequest.Status req ≠ "available").
Proof.
  intros (_ & _ & Hkey) Hr Htarget Honly Hvalid.
  destruct (findRecord_is_Some st _ _ _ range target Hr Htarget) as [[id found] Hfind].
  pose proof (findRecord_stored st _ _ _ _ _ _ Hr Hfind) as [Hid Hfound].
  apply Honly in Hfound as ->. pose proof (Hkey _ _ Hid) as <-.
  destruct Htarget as (_ & Hevent & Huser & Hslot).
  unfold updateUserAvailability. rewrite Hfind. simpl. rewrite Hvalid.
  eexists _, _. split; [done|].
  set (updated := UserAvailability.mk _ _ _ _ _ _ _).
  set (st' := mkStore _ _ _).
  assert (recordFor st' eventID userID timeslotID updated) as Hupdated.
  { split; [|by rewrite <-Hevent, <-Huser, <-Hslot].
    exists (UserAvailability.ID target). simpl. by rewrite lookup_insert_eq. }
  assert (∀ x, recordFor st' eventID userID timeslotID x → x = updated) as Hunique.
  { intros x [[id' Hx] Htuple]. simpl in Hx.
    apply lookup_insert_Some in Hx as [[_ <-]|[Hne Hx]]; [done|].
    assert (x = target) as -> by (apply Honly; split; eauto).
    by apply Hkey in Hx. }
  intros o recs r Hro Hget Hin <-.
  destruct (getRecommendations_elem _ _ _ _ _ Hget Hin)
    as (event & k & slot & _ & _ & _ & _ & ->).
  rewrite (elem_of_AvailableUsers st' eventID), (elem_of_UnavailableUsers st' eventID)
    by done.
  simpl. split.
  - split.
    + intros (x & ->%Hunique & Hstatus). done.
    + intros Hstatus. by exists updated.
  - split.
    + intros [_ Hnot] Hstatus. apply Hnot. by exists updated.
    + intros Hstatus. split.
      * by exists (TimeSlot.ID slot), updated.
      * intros (x & ->%Hunique & ?). done.
Qed.

Lemma update_decides_single_record_witness :
  let range := [("a1", firstAnswer)] in
  let req := UserAvailabilityRequest.mk "s1" "unavailable" in
  wellKeyed onceStore
  ∧ ranges (userAvailability onceStore) range
  ∧ recordFor onceStore "e1" "u1" "s1" firstAnswer
  ∧ (∀ other, recordFor onceStore "e1" "u1" "s1" other → other = firstAnswer)
  ∧ UserAvailabilityRequest.valid req = true
  ∧ ∃ updated st',
      updateUserAvailability range 30 "e1" "u1" "s1" (Some req) onceStore
      = (StatusOK updated, st').
Proof.
  intros range req.
  assert (wellKeyed onceStore) as Hkey.
  { replace onceStore with (run (take 3 changedMindRequests))
      by (vm_compute; reflexivity).
    apply run_wellKeyed. }
  assert (ranges (userAvailability onceStore) range) as Hr by ranges_of_map.
  assert (recordFor onceStore "e1" "u1" "s1" firstAnswer) as Hrec.
  { split; [|split_and!; reflexivity]. exists "a1". vm_compute; reflexivity. }
  assert (∀ other, recordFor onceStore "e1" "u1" "s1" other → other = firstAnswer)
    as Honly.
  { intros other [[id Hid] _]. apply elem_of_map_to_list in Hid.
    replace (map_to_list (userAvailability onceStore)) with [("a1", firstAnswer)] in Hid
      by (vm_compute; reflexivity).
    apply list_elem_of_singleton in Hid. congruence. }
  assert (UserAvailabilityRequest.valid req = true) as Hvalid
    by (vm_compute; reflexivity).
  split; [exact Hkey|]. split; [exact Hr|]. split; [exact Hrec|].
  split; [exact Honly|]. split; [exact Hvalid|].
  destruct (update_decides_single_record range 30 "e1" "u1" "s1" req onceStore
              firstAnswer Hkey Hr Hrec Honly Hvalid) as (updated & st' & Hrun & _).
  exists updated, st'. exact Hrun.
Defined.

(** ** What the answer holds *)

Lemma TimeSlot_scoreSlots o event eventID uniqueUsers k eventSlots :
  Recommendation.TimeSlot <$> scoreSlots o event eventID uniqueUsers k eventSlots
  = filter (λ slot, tooShort event slot = false) eventSlots.
Proof.
  revert k. induction eventSlots as [|slot rest IH]; intros k; simpl; [done|].
  rewrite filter_cons. destruct (tooShort event slot); simpl; by rewrite IH.
Qed.

(** The slots of the answer are the stored slots of the event that are
    long enough. *)
Lemma TimeSlot_getRecommendations o eventID st event u :
  rangesOver st eventID o →
  events st !! eventID = Some event →
  knownUser st eventID u →
  ∃ recs,
    getRecommendations o eventID st = StatusOK recs
    ∧ Recommendation.TimeSlot <$> recs
      ≡ₚ filter (eligible event eventID) (map_to_list (timeSlots st)).*2.
Proof.
  intros Hr Hev Hknown.
  assert (filter (λ slot, tooShort event slot = false)
            (eventSlotsOf eventID (slotRange o))
          ≡ₚ filter (eligible event eventID) (map_to_list (timeSlots st)).*2) as Hperm.
  { rewrite eventSlotsOf_filter, (slotRange_ranges _ _ _ Hr).
    rewrite list_filter_filter. apply Permutation_refl', list_filter_iff.
    intros slot. unfold eligible. tauto. }
  apply (knownUser_uniqueUsersOf st eventID o u Hr) in Hknown.
  unfold getRecommendations. rewrite Hev.
  destruct (length _ =? 0)%nat eqn:Hlen.
  { apply Nat.eqb_eq, length_zero_iff_nil in Hlen. rewrite Hlen in Hperm.
    eexists. split; [done|]. simpl. by rewrite <-Hperm. }
  destruct (size _ =? 0)%nat eqn:Hsize.
  { apply Nat.eqb_eq, size_empty_iff in Hsize. set_solver. }
  eexists. split; [done|].
  rewrite (exchangeSort_Permutation lessAvailable
             lessAvailable_asym lessAvailable_trans).
  by rewrite TimeSlot_scoreSlots.
Qed.

(** X15.  For a stored event with a known user the answer of
    [getRecommendations] holds one recommendation for each stored slot of
    the event that is long enough, and no other: the sort neither drops nor
    repeats a recommendation. *)
Theorem recommended_slots_once o eventID st event u :
  wellKeyed st →
  rangesOver st eventID o →
  events st !! eventID = Some event →
  knownUser st eventID u →
  ∃ recs,
    getRecommendations o eventID st = StatusOK recs
    ∧ Recommendation.TimeSlot <$> recs
      ≡ₚ filter (eligible event eventID) (map_to_list (timeSlots st)).*2
    ∧ NoDup (Recommendation.TimeSlot <$> recs).
Proof.
  intros (_ & Hkey & _) Hr Hev Hknown.
  destruct (TimeSlot_getRecommendations o eventID st event u Hr Hev Hknown)
    as (recs & Hget & Hperm).
  exists recs. split; [done|]. split; [done|].
  rewrite Hperm. apply NoDup_filter.
  apply (NoDup_values TimeSlot.ID (timeSlots st)); [done|].
  unfold ranges. done.
Qed.

Lemma recommended_slots_once_witness :
  wellKeyed changedMindStore
  ∧ rangesOver changedMindStore "e1" changedMindOrder
  ∧ events changedMindStore !! "e1" = Some syncEvent
  ∧ knownUser changedMindStore "e1" "u1"
  ∧ ∃ recs,
      getRecommendations changedMindOrder "e1" changedMindStore = StatusOK recs
      ∧ NoDup (Recommendation.TimeSlot <$> recs).
Proof.
  assert (events changedMindStore !! "e1" = Some syncEvent) as Hev
    by (vm_compute; reflexivity).
  assert (knownUser changedMindStore "e1" "u1") as Hknown.
  { exists "s1", firstAnswer. split; [|split_and!; reflexivity].
    exists "a1". vm_compute; reflexivity. }
  split; [exact changedMindStore_wellKeyed|].
  split; [exact changedMindOrder_ranges|]. split; [exact Hev|]. split; [exact Hknown|].
  destruct (recommended_slots_once changedMindOrder "e1" changedMindStore syncEvent "u1"
              changedMindStore_wellKeyed changedMindOrder_ranges Hev Hknown)
    as (recs & Hget & _ & Hnodup).
  exists recs. split; [exact Hget | exact Hnodup].
Defined.

(** ** The two ends of the percentage *)

Lemma percentage_none known :
  known ≠ 0 → (Z.of_nat known < 2 ^ 53)%Z → percentage 0 known = S754_zero false.
Proof.
  intros Hknown Hbound. unfold percentage.
  destruct (of_int_finite (Z.of_nat known)) as (m & e & ->); [lia..|].
  reflexivity.
Qed.

Lemma div_self (m : positive) (e : Z) :
  digits2_pos m = 53%positive →
  F64.div (S754_finite false m e) (S754_finite false m e)
  = S754_finite false 4503599627370496 (-52).
Proof.
  intros Hm. unfold F64.div, SFdiv, SFdiv_core_binary, Zdigits2. rewrite Hm.
  replace (Z.min (fexp F64.prec F64.emax (53 + e - (53 + e))) (e - e)) with (-53)%Z
    by (rewrite Z.sub_diag, Z.sub_diag; reflexivity).
  replace (e - e - -53)%Z with 53%Z by lia.
  rewrite Z.shiftl_mul_pow2 by lia.
  pose proof (Z.div_mul (2 ^ 53) (Z.pos m)) as Hq.
  pose proof (Z.mod_mul (2 ^ 53) (Z.pos m)) as Hrem.
  unfold Z.div, Z.modulo in Hq, Hrem. rewrite (Z.mul_comm (Z.pos m)).
  destruct (Z.div_eucl (2 ^ 53 * Z.pos m) (Z.pos m)) as [q r].
  simpl in Hq, Hrem. rewrite Hq, Hrem by lia.
  assert (new_location (Z.pos m) 0 = loc_Exact) as ->.
  { unfold new_location, new_location_even, new_location_odd.
    by destruct (Z.even (Z.pos m)). }
  vm_compute. reflexivity.
Qed.

Lemma percentage_all known :
  known ≠ 0 → (Z.of_nat known < 2 ^ 53)%Z → percentage known known = F64.of_int 100.
Proof.
  intros Hknown Hbound. unfold percentage.
  destruct (Z.of_nat known) as [|p|p] eqn:Hp; try lia.
  unfold F64.of_int at 1 2. unfold binary_normalize.
  rewrite of_int_pos by (apply digits2_pos_le_53; lia).
  rewrite div_self by (apply digits2_pos_mantissa53, digits2_pos_le_53; lia).
  vm_compute. reflexivity.
Qed.

(** X16.  With fewer than 2^53 known users, a recommendation without
    available users has the percentage 0 and one without unavailable users
    has exactly the percentage 100. *)
Theorem percentage_extremes o eventID st recs r :
  rangesOver st eventID o →
  getRecommendations o eventID st = StatusOK recs →
  r ∈ recs →
  (Z.of_nat (length (Recommendation.AvailableUsers r)
             + length (Recommendation.UnavailableUsers r)) < 2 ^ 53)%Z →
  (Recommendation.AvailableUsers r = [] →
   Recommendation.AvailabilityPercentage r = S754_zero false)
  ∧ (Recommendation.UnavailableUsers r = [] →
     Recommendation.AvailabilityPercentage r = F64.of_int 100).
Proof.
  intros Hr Hget Hin Hbound.
  destruct (getRecommendations_elem _ _ _ _ _ Hget Hin)
    as (event & k & slot & _ & _ & _ & Hsize & ->).
  pose proof (length_scoreSlot st eventID o
                (uniqueUsersOf eventID (availRange o)) k slot Hr) as Hsum.
  set (U := uniqueUsersOf eventID (availRange o)) in *.
  rewrite Hsum in Hbound.
  change (Recommendation.AvailabilityPercentage (scoreSlot o eventID U k slot))
    with (percentage (length (Recommendation.AvailableUsers
                                (scoreSlot o eventID U k slot))) (size U)).
  split.
  - intros ->. by apply percentage_none.
  - intros Hnone. rewrite Hnone, Nat.add_0_r in Hsum. rewrite Hsum.
    by apply percentage_all.
Qed.

Lemma percentage_extremes_witness :
  let r := Recommendation.mk onlySlot ["u1"] [] (percentage 1 1) in
  rangesOver changedMindStore "e1" changedMindOrder
  ∧ getRecommendations changedMindOrder "e1" changedMindStore = StatusOK [r]
  ∧ Recommendation.AvailabilityPercentage r = F64.of_int 100.
Proof.
  intros r.
  assert (getRecommendations changedMindOrder "e1" changedMindStore = StatusOK [r])
    as Hget by (vm_compute; reflexivity).
  split; [exact changedMindOrder_ranges|]. split; [exact Hget|].
  destruct (percentage_extremes changedMindOrder "e1" changedMindStore [r] r
              changedMindOrder_ranges Hget (list_elem_of_here _ _)) as [_ Hall].
  - vm_compute. reflexivity.
  - apply Hall. reflexivity.
Defined.

(** ** Lengths in whole minutes *)

(** X17.  For a stored slot of the event whose length is a whole number [m]
    of minutes (within the range of a [Duration]) and a required duration
    below 2^53 in absolute value, the slot is recommended exactly if the
    required duration is at most [m], as soon as the event has a known
    user: on such lengths the comparison in float64 is the comparison of
    the integers. *)
Theorem whole_minute_slot_recommended o eventID st event u id slot m :
  rangesOver st eventID o →
  events st !! eventID = Some event →
  knownUser st eventID u →
  timeSlots st !! id = Some slot →
  TimeSlot.EventID slot = eventID →
  (TimeSlot.EndTime slot - TimeSlot.StartTime slot = m * Time.Minute)%Z →
  (0 ≤ m * Time.Minute ≤ Time.maxDuration)%Z →
  (Z.abs (Event.RequiredDuration event) < 2 ^ 53)%Z →
  ∃ recs,
    getRecommendations o eventID st = StatusOK recs
    ∧ ((∃ r, r ∈ recs ∧ Recommendation.TimeSlot r = slot)
       ↔ (Event.RequiredDuration event ≤ m)%Z).
Proof.
  intros Hr Hev Hknown Hslot Hevent Hlen Hm Hreq.
  destruct (TimeSlot_getRecommendations o eventID st event u Hr Hev Hknown)
    as (recs & Hget & Hperm).
  exists recs. split; [done|].
  pose proof (tooShort_whole_minutes event slot m Hlen Hm Hreq) as Hshort.
  assert ((∃ r, r ∈ recs ∧ Recommendation.TimeSlot r = slot)
          ↔ slot ∈ Recommendation.TimeSlot <$> recs) as ->.
  { rewrite list_elem_of_fmap. naive_solver. }
  rewrite Hperm, list_elem_of_filter, list_elem_of_fmap. unfold eligible.
  rewrite Hshort, Z.ltb_ge. split; [tauto|].
  intros Hle. split; [done|]. exists (id, slot). split; [done|].
  by apply elem_of_map_to_list.
Qed.

Lemma whole_minute_slot_recommended_witness :
  rangesOver (surveyStore 60) "e1" surveyOrder
  ∧ events (surveyStore 60) !! "e1" = Some syncEvent
  ∧ timeSlots (surveyStore 60) !! "sB" = Some shortSlot
  ∧ (TimeSlot.EndTime shortSlot - TimeSlot.StartTime shortSlot = 30 * Time.Minute)%Z
  ∧ ∃ recs,
      getRecommendations surveyOrder "e1" (surveyStore 60) = StatusOK recs
      ∧ ¬ ∃ r, r ∈ recs ∧ Recommendation.TimeSlot r = shortSlot.
Proof.
  assert (rangesOver (surveyStore 60) "e1" surveyOrder) as Hr
    by ranges_by_computation.
  assert (events (surveyStore 60) !! "e1" = Some syncEvent) as Hev
    by (vm_compute; reflexivity).
  assert (timeSlots (surveyStore 60) !! "sB" = Some shortSlot) as Hslot
    by (vm_compute; reflexivity).
  assert (TimeSlot.EndTime shortSlot - TimeSlot.StartTime shortSlot
          = 30 * Time.Minute)%Z as Hlen by (vm_compute; reflexivity).
  assert (knownUser (surveyStore 60) "e1" "u1") as Hknown.
  { exists "sA", (UserAvailability.mk "a1" "u1" "e1" "sA" "available" 4 4).
    split; [|split_and!; reflexivity]. exists "a1". vm_compute; reflexivity. }
  split; [exact Hr|]. split; [exact Hev|]. split; [exact Hslot|]. split; [exact Hlen|].
  destruct (whole_minute_slot_recommended surveyOrder "e1" (surveyStore 60) syncEvent
              "u1" "sB" shortSlot 30 Hr Hev Hknown Hslot eq_refl Hlen)
    as (recs & Hget & Hiff).
  - vm_compute. split; discriminate.
  - vm_compute. reflexivity.
  - exists recs. split; [exact Hget|].
    intros Hin. apply Hiff in Hin. vm_compute in Hin. by apply Hin.
Defined.

(** ** Percentages that are numbers *)

(** X18.  With fewer than 2^53 known users no percentage of an answer is
    NaN, and the answer is descending in the order [≤] of float64: every
    recommendation has a percentage that is at most the percentage of each
    recommendation before it. *)
Theorem percentages_are_numbers o eventID st recs :
  rangesOver st eventID o →
  getRecommendations o eventID st = StatusOK recs →
  (∀ r, r ∈ recs →
     (Z.of_nat (length (Recommendation.AvailableUsers r)
                + length (Recommendation.UnavailableUsers r)) < 2 ^ 53)%Z) →
  (∀ r, r ∈ recs → F64.is_nan (Recommendation.AvailabilityPercentage r) = false)
  ∧ (∀ i j a b, i < j → recs !! i = Some a → recs !! j = Some b →
       F64.leb (Recommendation.AvailabilityPercentage b)
               (Recommendation.AvailabilityPercentage a) = true).
Proof.
  intros Hr Hget Hbound. split.
  - intros r Hin. specialize (Hbound r Hin).
    destruct (getRecommendations_elem _ _ _ _ _ Hget Hin)
      as (event & k & slot & _ & _ & _ & Hsize & ->).
    pose proof (length_scoreSlot st eventID o
                  (uniqueUsersOf eventID (availRange o)) k slot Hr) as Hsum.
    set (U := uniqueUsersOf eventID (availRange o)) in *.
    rewrite Hsum in Hbound.
    change (F64.is_nan
              (percentage (length (Recommendation.AvailableUsers
                                     (scoreSlot o eventID U k slot))) (size U)) = false).
    apply percentage_not_nan; [lia|done..].
  - by apply (recommendations_descending o eventID st).
Qed.

Lemma percentages_are_numbers_witness :
  rangesOver (surveyStore 30) "e1" surveyOrder
  ∧ getRecommendations surveyOrder "e1" (surveyStore 30) = StatusOK surveyAnswer30
  ∧ ∀ r, r ∈ surveyAnswer30 →
      F64.is_nan (Recommendation.AvailabilityPercentage r) = false.
Proof.
  assert (rangesOver (surveyStore 30) "e1" surveyOrder) as Hr
    by ranges_by_computation.
  assert (getRecommendations surveyOrder "e1" (surveyStore 30) = StatusOK surveyAnswer30)
    as Hget by (vm_compute; reflexivity).
  split; [exact Hr|]. split; [exact Hget|].
  apply (percentages_are_numbers surveyOrder "e1" (surveyStore 30) surveyAnswer30 Hr Hget).
  intros r Hin.
  apply elem_of_cons in Hin as [->|Hin]; [vm_compute; reflexivity|].
  apply list_elem_of_singleton in Hin as ->. vm_compute; reflexivity.
Defined.
